(** * vscode-coder: [src/utils.ts]

    A shallow embedding of the stream helpers of [src/utils.ts]:
    the line splitter [onLine], the process wrapper [wrapExit], the
    temporary-directory helpers [clean] and [tmpdir], and the two archive
    extractors [extractTar] and [extractZip].

    An event emitter is modelled by the state its listeners close over and
    by one transition per event; the listeners run to completion, one event
    at a time.  An [await] is a point where the body of an [async] function
    stops until its promise is settled; a rejection is thrown from there.
    The file system is a finite map from paths to entries, and the calls of
    [fs], [path] and [stream] are given the meaning their documentation
    gives them. *)

From Stdlib Require Import ZArith Ascii String List Lia.
From stdpp Require Import base list strings gmap pretty.

(* [String.append] reduces on a constructor of its first argument. *)
Local Arguments String.append !_ _ / : simpl nomatch.

(** ** JavaScript strings

    After [stream.setEncoding("utf8")] the [data] handler receives text: a
    chunk is the [string] passed to the handler, and the content of a stream
    is the concatenation of its chunks.  A newline is one character, in the
    text as in its UTF-8 bytes. *)

Definition LF : ascii := "010"%char.

(** The one-character string ["\n"]. *)
Definition nl : string := String LF "".

(** [String.prototype.split] for a separator of one character: the segments
    between the occurrences of [sep], in order.  The result is never empty;
    [String_split sep ""] is [[""]]. *)
Fixpoint String_split (sep : ascii) (s : string) : list string :=
  match s with
  | EmptyString => [EmptyString]
  | String c s' =>
      if decide (c = sep) then EmptyString :: String_split sep s'
      else match String_split sep s' with
           | seg :: segs => String c seg :: segs
           | [] => [String c EmptyString]
           end
  end.

(** [Array.prototype.join]. *)
Fixpoint Array_join (sep : string) (segs : list string) : string :=
  match segs with
  | [] => EmptyString
  | [seg] => seg
  | seg :: segs' => seg +:+ sep +:+ Array_join sep segs'
  end.

(** Concatenation of the chunks of a stream: its whole content. *)
Definition content (chunks : list string) : string :=
  foldr String.app EmptyString chunks.

(** The text of [lines], each followed by [sep]. *)
Definition terminated (sep : string) (lines : list string) : string :=
  content (map (fun line => line +:+ sep) lines).

(** [c] occurs in [s]. *)
Fixpoint occurs (c : ascii) (s : string) : bool :=
  match s with
  | EmptyString => false
  | String c' s' => bool_decide (c' = c) || occurs c s'
  end.

(** ** [onLine] *)

Module Lines.

(** What the two handlers of [onLine] close over: the variable [buffer],
    and the calls made to [callback] so far, oldest first. *)
Record state := State { buffer : string; calls : list string }.

(** [let buffer = ""] *)
Definition init : state := State "" [].

(** [callback(line)] *)
Definition callback (line : string) (st : state) : state :=
  State (buffer st) (calls st ++ [line]).

(** The handler of [data]. *)
Definition on_data (d : string) (st : state) : state :=
  let data := buffer st +:+ d in
  let split := String_split LF data in  (* data.split("\n") *)
  let last := length split - 1 in
  (* for (let i = 0; i < last; ++i) callback(split[i]) *)
  let st' := fold_left (fun st i => callback (nth i split "") st) (seq 0 last) st in
  (* buffer = split[last] *)
  State (nth last split "") (calls st').

(** The handler of [end]. *)
Definition on_end (st : state) : state := callback (buffer st) st.

(** The events a readable stream emits to the handlers [onLine] sets. *)
Inductive event := Data (d : string) | End.

Definition handle (st : state) (ev : event) : state :=
  match ev with
  | Data d => on_data d st
  | End => on_end st
  end.

(** The state after the [data] events of [chunks]. *)
Definition feed (chunks : list string) (st : state) : state :=
  fold_left handle (map Data chunks) st.

(** A stream that delivers [chunks] and ends: the lines [onLine] passes to
    [callback], in order. *)
Definition onLine (chunks : list string) : list string :=
  calls (fold_left handle (map Data chunks ++ [End]) init).

End Lines.

(** ** Errors and promises *)

(** A JavaScript error: one made by [new Error(message)], or one of the
    runtime, told apart by its [code] ([ENOENT], [ENOTDIR], ...). *)
Inductive error :=
| Error (message : string)
| SystemError (code : string).

Global Instance error_eq_dec : EqDecision error.
Proof. solve_decision. Defined.

(** A promise is settled at most once: [resolve] and [reject] do nothing on
    a settled promise.  Awaiting a promise that stays [Pending] never
    returns. *)
Inductive promise (A : Type) :=
| Pending
| Resolved (a : A)
| Rejected (e : error).
Arguments Pending {A}.
Arguments Resolved {A} a.
Arguments Rejected {A} e.

Definition resolve {A} (a : A) (p : promise A) : promise A :=
  match p with Pending => Resolved a | _ => p end.

Definition reject {A} (e : error) (p : promise A) : promise A :=
  match p with Pending => Rejected e | _ => p end.

(** ** [wrapExit] *)

Module Exit.

(** The part of [cp.ChildProcess] that [wrapExit] reads. *)
Record ChildProcess := { spawnfile : string }.

(** The events of a child process that [wrapExit] listens to.  The code of
    [exit] is a number, or [null] when a signal ended the process. *)
Inductive event :=
| error_event (e : error)
| exit_event (code : option Z).

(** [`${code}`] *)
Definition code_text (code : option Z) : string :=
  match code with
  | Some n => pretty n
  | None => "null"
  end.

Definition quote : string := String "034"%char "".

(** [new Error(`Command "${proc.spawnfile}" failed with code ${code}`)] *)
Definition failure (proc : ChildProcess) (code : option Z) : error :=
  Error ("Command " +:+ quote +:+ spawnfile proc +:+ quote +:+
         " failed with code " +:+ code_text code).

(** The listener of [exit]. *)
Definition on_exit (proc : ChildProcess) (code : option Z)
    (p : promise unit) : promise unit :=
  if decide (code = Some 0%Z) then resolve tt p
  else reject (failure proc code) p.

(** The listener of [error] is [reject] itself. *)
Definition handle (proc : ChildProcess) (p : promise unit) (ev : event) : promise unit :=
  match ev with
  | error_event e => reject e p
  | exit_event code => on_exit proc code p
  end.


End Exit.

(** ** Paths and the file system *)

(** A normalized absolute path: its segments, from the root. *)
Definition path := list string.

(** [path.join(base, rel)] on POSIX, for a normalized absolute [base]: the
    segments of [rel] are appended, empty segments and ["."] are dropped and
    [".."] removes the segment before it (none at the root). *)
Fixpoint normalize (stack : list string) (segs : list string) : path :=
  match segs with
  | [] => rev stack
  | seg :: segs' =>
      if decide (seg = "" \/ seg = ".") then normalize stack segs'
      else if decide (seg = "..") then normalize (tail stack) segs'
      else normalize (seg :: stack) segs'
  end.

Definition path_join (base : path) (rel : string) : path :=
  normalize (rev base) (String_split "/"%char rel).

Inductive node :=
| Dir
| File (data : string).

Global Instance node_eq_dec : EqDecision node.
Proof. solve_decision. Defined.

(** The entries of the file system, by path.  The root always exists. *)
Abbreviation files := (gmap path node).

Inductive result (A : Type) :=
| Ok (a : A)
| Err (e : error).
Arguments Ok {A} a.
Arguments Err {A} e.

Module Fs.

(** [p] and the directories above it, the root apart, outermost first. *)
Definition ancestors (p : path) : list path :=
  (fun n => take n p) <$> seq 1 (length p).

Definition is_file (fs : files) (p : path) : bool :=
  match fs !! p with Some (File _) => true | _ => false end.

Definition is_dir (fs : files) (p : path) : bool :=
  match p, fs !! p with
  | [], _ => true
  | _, Some Dir => true
  | _, _ => false
  end.

(** [fs.promises.mkdir(p, { recursive: true })]: creates [p] and the
    missing directories above it; a directory that exists is left as it is;
    a file in the way is an error. *)
Definition mkdir_recursive (p : path) (fs : files) : result files :=
  if existsb (is_file fs) (ancestors p) then
    Err (SystemError (if is_file fs p then "EEXIST" else "ENOTDIR"))
  else Ok (foldr (fun q fs => <[q := Dir]> fs) fs (ancestors p)).

(** [fs.promises.mkdtemp(prefix)]: creates a directory whose path is
    [prefix] followed by six characters [suffix] chosen by the system, in
    the directory of [prefix], which must exist. *)
Definition mkdtemp (prefix : path) (suffix : string) (fs : files) : result (path * files) :=
  let dir := removelast prefix in
  let p := dir ++ [List.last prefix "" +:+ suffix] in
  if negb (is_dir fs dir) then Err (SystemError "ENOENT")
  else match fs !! p with
       | Some _ => Err (SystemError "EEXIST")
       | None => Ok (p, <[p := Dir]> fs)
       end.

(** [p] exists: it is the root or an entry. *)
Definition exists_ (fs : files) (p : path) : bool :=
  match p with
  | [] => true
  | _ => bool_decide (is_Some (fs !! p))
  end.

(** Every entry lies in a directory that exists. *)
Definition closed (fs : files) : Prop :=
  forall p q, is_Some (fs !! p) -> q `prefix_of` p -> q <> [] -> q <> p -> fs !! q = Some Dir.

(** [p] is [dir] or lies below it. *)
Definition below (dir p : path) : Prop := dir `prefix_of` p.

Definition entries_below (dir : path) (fs : files) : files :=
  filter (fun kv => below dir kv.1) fs.

(** The directories above [p], the root apart, outermost first. *)
Definition above (p : path) : list path :=
  (fun n => take n p) <$> seq 1 (length p - 1).

(** What keeps the process from reaching an entry inside the directories
    [dirs], walked from the root: a regular file where a directory is
    expected (ENOTDIR), or a directory the process may not search
    (EACCES). *)
Fixpoint blocked_at (denied : gset path) (fs : files) (dirs : list path) : option error :=
  match dirs with
  | [] => None
  | q :: dirs' =>
      if is_file fs q then Some (SystemError "ENOTDIR")
      else if bool_decide (q ∈ denied) then Some (SystemError "EACCES")
      else blocked_at denied fs dirs'
  end.

Definition blocked (denied : gset path) (fs : files) (p : path) : option error :=
  blocked_at denied fs (above p).

(** [fs.promises.rmdir(dir, options)].  The call fails, and removes
    nothing, when [dir] cannot be reached.  Without [recursive] the
    directory must exist and be empty.  With [recursive: true] the entry
    and all below it are removed; what the call does with a path that does
    not exist depends on the runtime: the recursive mode of Node 12 to 15
    ([lenient]) takes it for removed and resolves, and removes a regular
    file as well; from Node 16 on the call rejects with ENOENT, and with
    ENOTDIR on a regular file.  In a file system that is [closed] nothing
    lies below a path that does not exist, and the lenient call leaves the
    file system as it is.  The entries of the file system are taken to be
    removable: the failures are those of reaching and of finding [dir]. *)
Definition rmdir (recursive lenient : bool) (denied : gset path) (dir : path) (fs : files) : result files :=
  match blocked denied fs dir with
  | Some e => Err e
  | None =>
      if recursive then
        let removed := Ok (filter (fun kv => ~ below dir kv.1) fs) in
        match dir, fs !! dir with
        | [], _ => removed
        | _, Some Dir => removed
        | _, Some (File _) => if lenient then removed else Err (SystemError "ENOTDIR")
        | _, None => if lenient then removed else Err (SystemError "ENOENT")
        end
      else
        match fs !! dir with
        | None => Err (SystemError "ENOENT")
        | Some (File _) => Err (SystemError "ENOTDIR")
        | Some Dir =>
            if decide (entries_below dir fs = {[dir := Dir]}) then Ok (delete dir fs)
            else Err (SystemError "ENOTEMPTY")
        end
  end.

(** What the helpers read from the host: [os.tmpdir()], the directories
    the process may not search, and whether the recursive [rmdir] of the
    runtime is the lenient one of Node 12 to 15.  [denied] is read by
    [rmdir] alone: [mkdir] and [mkdtemp] are modelled for a process that may
    write where it is sent. *)
Record host := HostOn { tmp : path; denied : gset path; rmdir_lenient : bool }.

(** A host that runs Node 12 to 15, where [rmdir] got its [recursive]
    option. *)
Definition Host (tmp : path) (denied : gset path) : host := HostOn tmp denied true.

(** [clean(name)] *)
Definition clean (h : host) (name : string) (fs : files) : result files :=
  let dir := path_join (tmp h) ("coder/" +:+ name) in
  rmdir true (rmdir_lenient h) (denied h) dir fs.

(** [tmpdir(name)]; [suffix] is the choice of [mkdtemp]. *)
Definition tmpdir (h : host) (suffix : string) (name : string) (fs : files) : result (path * files) :=
  let dir := path_join (tmp h) ("coder/" +:+ name) in
  match mkdir_recursive dir fs with
  | Err e => Err e
  | Ok fs' => mkdtemp (path_join dir "tmp-") suffix fs'
  end.

End Fs.

(** ** [extractTar] *)

Module Tar.

(** The three streams of the pipeline: [response], [decompress] and
    [destination]. *)
Inductive emitter := Response | Decompress | Destination.

Global Instance emitter_eq_dec : EqDecision emitter.
Proof. solve_decision. Defined.

(** The calls [extractTar] and its listeners make, in the order of the
    source. *)
Inductive call :=
| Pause                               (* response.pause() *)
| Mkdir (p : path)                    (* fs.promises.mkdir(p, { recursive: true }) *)
| CreateGunzip                        (* zlib.createGunzip() *)
| Extract (p : path)                  (* tar.extract(p) *)
| Pipe (src dst : emitter)            (* src.pipe(dst) *)
| On (src : emitter) (name : string)  (* src.on(name, ...) *)
| Resume                              (* response.resume() *)
| Destroy (dst : emitter) (e : error) (* dst.destroy(e) *).

Global Instance call_eq_dec : EqDecision call.
Proof. solve_decision. Defined.

(** A stage does not exist before it is created, and is [Destroyed e] once
    [destroy(e)] has been called on it. *)
Inductive stage := Absent | Live | Destroyed (e : error).

Global Instance stage_eq_dec : EqDecision stage.
Proof. solve_decision. Defined.

(** Where the body of [extractTar] stands: at its first [await], at its
    second, or returned (or thrown). *)
Inductive control := AwaitMkdir | AwaitExtract | Returned (r : result path).

Record state := State {
  fs : files;
  flowing : bool;                (* response is in flowing mode *)
  calls : list call;             (* the calls made so far, oldest first *)
  decompress : stage;
  destination : stage;
  awaited : promise unit;        (* the promise of the second [await] *)
  delivered : list string;       (* chunks piped into [decompress] *)
  lost : list string;            (* chunks emitted while nothing was piped *)
  unhandled : list error;        (* [error] events emitted without a listener *)
  pc : control;
}.

Definition set_fs x st :=
  State x (flowing st) (calls st) (decompress st) (destination st) (awaited st)
        (delivered st) (lost st) (unhandled st) (pc st).
Definition set_flowing x st :=
  State (fs st) x (calls st) (decompress st) (destination st) (awaited st)
        (delivered st) (lost st) (unhandled st) (pc st).
Definition set_calls x st :=
  State (fs st) (flowing st) x (decompress st) (destination st) (awaited st)
        (delivered st) (lost st) (unhandled st) (pc st).
Definition set_decompress x st :=
  State (fs st) (flowing st) (calls st) x (destination st) (awaited st)
        (delivered st) (lost st) (unhandled st) (pc st).
Definition set_destination x st :=
  State (fs st) (flowing st) (calls st) (decompress st) x (awaited st)
        (delivered st) (lost st) (unhandled st) (pc st).
Definition set_awaited x st :=
  State (fs st) (flowing st) (calls st) (decompress st) (destination st) x
        (delivered st) (lost st) (unhandled st) (pc st).
Definition set_delivered x st :=
  State (fs st) (flowing st) (calls st) (decompress st) (destination st) (awaited st)
        x (lost st) (unhandled st) (pc st).
Definition set_lost x st :=
  State (fs st) (flowing st) (calls st) (decompress st) (destination st) (awaited st)
        (delivered st) x (unhandled st) (pc st).
Definition set_unhandled x st :=
  State (fs st) (flowing st) (calls st) (decompress st) (destination st) (awaited st)
        (delivered st) (lost st) x (pc st).
Definition set_pc x st :=
  State (fs st) (flowing st) (calls st) (decompress st) (destination st) (awaited st)
        (delivered st) (lost st) (unhandled st) x.

Definition call_ (c : call) (st : state) : state := set_calls (calls st ++ [c]) st.

(** A listener or a pipe is in place once the call that sets it was made. *)
Definition registered (c : call) (st : state) : bool := bool_decide (c ∈ calls st).

Definition pause (st : state) : state := call_ Pause (set_flowing false st).
Definition resume (st : state) : state := call_ Resume (set_flowing true st).

(** The events of the environment: the pending [mkdir] completes, or one
    of the three streams emits an event. *)
Inductive event :=
| MkdirSettled
| ResponseData (chunk : string)
| ResponseError (e : error)
| DecompressError (e : error)
| DestinationError (e : error)
| DestinationFinish.

Section extractTar.

(** Whether [pipe] itself switches a paused source to flowing mode; Node's
    implementation does.  The data still arrives in a later turn of the
    event loop, after the calls that follow [pipe] in the same turn. *)
Context (pipe_resumes : bool).

(** [downloadPath] *)
Context (downloadPath : path).

Definition pipe (src dst : emitter) (st : state) : state :=
  call_ (Pipe src dst)
    (if pipe_resumes && bool_decide (src = Response) then set_flowing true st else st).

(** After [await new Promise(...)]: [return downloadPath], or the
    rejection is thrown. *)
Definition continue (st : state) : state :=
  match pc st, awaited st with
  | AwaitExtract, Resolved _ => set_pc (Returned (Ok downloadPath)) st
  | AwaitExtract, Rejected e => set_pc (Returned (Err e)) st
  | _, _ => st
  end.

(** [destination] emits [error]: the listener is [reject]. *)
Definition emit_destination_error (e : error) (st : state) : state :=
  if registered (On Destination "error") st
  then continue (set_awaited (reject e (awaited st)) st)
  else set_unhandled (unhandled st ++ [e]) st.

(** [destination] emits [finish]: the listener is [resolve]. *)
Definition emit_destination_finish (st : state) : state :=
  if registered (On Destination "finish") st
  then continue (set_awaited (resolve tt (awaited st)) st)
  else st.

(** [destination.destroy(e)]: a live stream is destroyed and emits
    [error]; on a destroyed one the call does nothing. *)
Definition destroy_destination (e : error) (st : state) : state :=
  let st := call_ (Destroy Destination e) st in
  match destination st with
  | Live => emit_destination_error e (set_destination (Destroyed e) st)
  | _ => st
  end.

(** [decompress] emits [error]: the listener destroys [destination]. *)
Definition emit_decompress_error (e : error) (st : state) : state :=
  if registered (On Decompress "error") st
  then destroy_destination e st
  else set_unhandled (unhandled st ++ [e]) st.

(** [decompress.destroy(e)] *)
Definition destroy_decompress (e : error) (st : state) : state :=
  let st := call_ (Destroy Decompress e) st in
  match decompress st with
  | Live => emit_decompress_error e (set_decompress (Destroyed e) st)
  | _ => st
  end.

(** [response] emits [error]: the listener destroys [decompress]. *)
Definition emit_response_error (e : error) (st : state) : state :=
  if registered (On Response "error") st
  then destroy_decompress e st
  else set_unhandled (unhandled st ++ [e]) st.

(** [response] emits [data] in flowing mode only; the chunk goes where
    [response] is piped, and a destroyed stage takes no more input. *)
Definition emit_response_data (chunk : string) (st : state) : state :=
  if flowing st then
    if registered (Pipe Response Decompress) st
    then match decompress st with
         | Live => set_delivered (delivered st ++ [chunk]) st
         | _ => st
         end
    else set_lost (lost st ++ [chunk]) st
  else st.

(** The body of [extractTar] up to its first [await].  Whatever the mode of
    [response] was, [pause] sets it. *)
Definition start (fs0 : files) : state :=
  let st := State fs0 true [] Absent Absent Pending [] [] [] AwaitMkdir in
  let st := pause st in
  call_ (Mkdir downloadPath) st.

(** The body of [extractTar] between its two [await]s. *)
Definition wire (st : state) : state :=
  let st := call_ CreateGunzip (set_decompress Live st) in
  let st := pipe Response Decompress st in
  let st := call_ (On Response "error") st in
  let st := call_ (Extract downloadPath) (set_destination Live st) in
  let st := pipe Decompress Destination st in
  let st := call_ (On Decompress "error") st in
  let st := call_ (On Destination "error") st in
  let st := call_ (On Destination "finish") st in
  let st := resume st in
  set_pc AwaitExtract st.

(** [mkdir] completes: its rejection is thrown, otherwise the body goes
    on to the second [await]. *)
Definition mkdir_settled (st : state) : state :=
  match pc st with
  | AwaitMkdir =>
      match Fs.mkdir_recursive downloadPath (fs st) with
      | Err e => set_pc (Returned (Err e)) st
      | Ok fs' => wire (set_fs fs' st)
      end
  | _ => st
  end.

Definition handle (st : state) (ev : event) : state :=
  match ev with
  | MkdirSettled => mkdir_settled st
  | ResponseData chunk => emit_response_data chunk st
  | ResponseError e => emit_response_error e st
  | DecompressError e => emit_decompress_error e st
  | DestinationError e => emit_destination_error e st
  | DestinationFinish => emit_destination_finish st
  end.

Definition run (fs0 : files) (events : list event) : state :=
  fold_left handle events (start fs0).

(** The promise [extractTar] returns. *)
Definition outcome (st : state) : promise path :=
  match pc st with
  | Returned (Ok p) => Resolved p
  | Returned (Err e) => Rejected e
  | _ => Pending
  end.

Definition extractTar (fs0 : files) (events : list event) : promise path :=
  outcome (run fs0 events).

End extractTar.

(** The calls of the body of [extractTar], in the order of the source. *)
Definition entry_calls (p : path) : list call := [Pause; Mkdir p].

Definition wiring_calls (p : path) : list call :=
  [ CreateGunzip; Pipe Response Decompress; On Response "error";
    Extract p; Pipe Decompress Destination; On Decompress "error";
    On Destination "error"; On Destination "finish" ].

(** Both stages exist, both pipes are in place and the three streams have
    their listeners. *)
Definition wired (st : state) : bool :=
  bool_decide (decompress st <> Absent) && bool_decide (destination st <> Absent) &&
  registered (Pipe Response Decompress) st && registered (On Response "error") st &&
  registered (Pipe Decompress Destination) st && registered (On Decompress "error") st &&
  registered (On Destination "error") st && registered (On Destination "finish") st.

(** The events that can settle the promise of [extractTar] once the
    pipeline is wired. *)
Definition settles (ev : event) : bool :=
  match ev with
  | MkdirSettled | ResponseData _ => false
  | _ => true
  end.

(** What the promise of [extractTar] becomes when [ev] is the first event
    that settles it. *)
Definition verdict (p : path) (ev : event) : promise path :=
  match ev with
  | DestinationFinish => Resolved p
  | ResponseError e | DecompressError e | DestinationError e => Rejected e
  | MkdirSettled | ResponseData _ => Pending
  end.

Definition is_destroy (c : call) : Prop :=
  match c with Destroy _ _ => True | _ => False end.

(** The states of a run of [extractTar p] are of two kinds.  Up to the
    completion of [mkdir], only [pause] and [mkdir] have been called and
    the stream is paused. *)
Record before_wiring (p : path) (st : state) : Prop := BeforeWiring {
  bw_calls : calls st = entry_calls p;
  bw_flowing : flowing st = false;
  bw_decompress : decompress st = Absent;
  bw_destination : destination st = Absent;
  bw_awaited : awaited st = Pending;
  bw_delivered : delivered st = [];
  bw_lost : lost st = [];
  bw_pc : pc st = AwaitMkdir \/ exists e, pc st = Returned (Err e);
}.

(** The second [await] reflects the promise it waits for. *)
Definition settled_as (p : path) (st : state) : Prop :=
  match awaited st with
  | Pending => pc st = AwaitExtract
  | Resolved _ => pc st = Returned (Ok p)
  | Rejected e => pc st = Returned (Err e)
  end.

(** After it, all the calls of the body have been made, [resume] last, and
    only [destroy] calls follow; the directory exists. *)
Record after_wiring (p : path) (st : state) : Prop := AfterWiring {
  aw_calls : exists extra,
    calls st = entry_calls p ++ wiring_calls p ++ Resume :: extra /\
    Forall is_destroy extra;
  aw_flowing : flowing st = true;
  aw_decompress : decompress st <> Absent;
  aw_destination : destination st <> Absent;
  aw_lost : lost st = [];
  aw_dir : Fs.is_dir (fs st) p = true;
  aw_settled : settled_as p st;
}.

(** The pipeline is wired, both stages are live and the promise of the
    second [await] is pending. *)
Definition ready (p : path) (st : state) : Prop :=
  after_wiring p st /\ awaited st = Pending /\
  decompress st = Live /\ destination st = Live.

(** A destroyed [decompress] has passed its error on: [destination] is
    destroyed too. *)
Definition chained (st : state) : Prop :=
  decompress st <> Live -> destination st <> Live.

End Tar.

(** ** [extractZip] *)

Module Zip.

(** The calls [extractZip] and its listener make, in the order of the
    source. *)
Inductive call :=
| Pause                          (* response.pause() *)
| Mkdir (p : path)               (* fs.promises.mkdir(p, { recursive: true }) *)
| Tmpdir (name : string)         (* tmpdir(name) *)
| CreateWriteStream (p : path)   (* fs.createWriteStream(p) *)
| PipeResponse                   (* response.pipe(write) *)
| OnResponseError                (* response.on("error", ...) *)
| OnWriteError                   (* write.on("error", reject) *)
| OnWriteFinish                  (* write.on("finish", resolve) *)
| Resume                         (* response.resume() *)
| DestroyWrite (e : error)       (* write.destroy(e) *)
| Unzip (zipPath dir : path)     (* unzip(zipPath, { dir }) *)
| Clean (name : string)          (* clean(name) *).

Global Instance call_eq_dec : EqDecision call.
Proof. solve_decision. Defined.

Record world := World {
  fs : files;
  calls : list call;             (* the calls made so far, oldest first *)
}.

(** An [async] computation: it changes the world, and its promise
    resolves, rejects or stays pending. *)
Definition async (A : Type) : Type := world -> world * promise A.

(** [return] *)
Global Instance async_ret : MRet async := fun A a w => (w, Resolved a).

(** [await]: the rest of the body runs once the promise has resolved; a
    rejection is thrown, and nothing in [extractZip] catches it. *)
Global Instance async_bind : MBind async := fun A B k m w =>
  match m w with
  | (w', Resolved a) => k a w'
  | (w', Rejected e) => (w', Rejected e)
  | (w', Pending) => (w', Pending)
  end.

(** A promise that rejects with [e], and one that never settles. *)
Definition rejected {A} (e : error) : async A := fun w => (w, Rejected e).
Definition pending {A} : async A := fun w => (w, Pending).

Definition call_ (c : call) : async unit :=
  fun w => (World (fs w) (calls w ++ [c]), Resolved tt).

(** An operation of the file system, awaited. *)
Definition await_fs {A} (op : files -> result (A * files)) : async A :=
  fun w =>
    match op (fs w) with
    | Ok (a, fs') => (World fs' (calls w), Resolved a)
    | Err e => (w, Rejected e)
    end.

Definition update_fs (f : files -> files) : async unit :=
  fun w => (World (f (fs w)) (calls w), Resolved tt).

(** The events of [response] and [write] once the stream flows.  [pipe]
    hands each chunk of [response] to [write]; the write stream opens the
    file and writes the chunks it holds one by one, each some time after it
    was handed over. *)
Inductive event :=
| ResponseData (chunk : string)  (* response emits "data": write.write(chunk) *)
| ResponseError (e : error)      (* response emits "error" *)
| WriteOpen                      (* write has opened the file *)
| WriteChunk                     (* write has written the oldest chunk it holds *)
| WriteError (e : error)         (* write emits "error" *)
| WriteFinish.                   (* write emits "finish" *)

(** The file of the write stream holds [data]. *)
Definition store (zipPath : path) (data : string) : async unit :=
  update_fs (fun fs => <[zipPath := File data]> fs).

(** The promise of the write.  [file] is what the write stream has written
    to the file, once it has opened it, and [queue] the chunks it holds.
    Opening creates the file empty, and a write opens the file if need be.
    An [error] of [response] destroys [write] with that error: the chunks
    it holds are given up, the file is opened and closed, and [write] emits
    the error; [error] of [write] rejects; [finish] comes when all chunks
    are in the file, and resolves.  The events are followed up to the one
    that settles the promise. *)
Fixpoint write_settled (zipPath : path) (file : option string) (queue : list string)
    (events : list event) : async unit :=
  match events with
  | [] => pending
  | ResponseData d :: events' => write_settled zipPath file (queue ++ [d]) events'
  | WriteOpen :: events' =>
      match file with
      | None => store zipPath "" ;; write_settled zipPath (Some "") queue events'
      | Some _ => write_settled zipPath file queue events'
      end
  | WriteChunk :: events' =>
      match queue with
      | [] => write_settled zipPath file queue events'
      | d :: queue' =>
          let data := default "" file +:+ d in
          store zipPath data ;; write_settled zipPath (Some data) queue' events'
      end
  | ResponseError e :: _ =>
      call_ (DestroyWrite e) ;; store zipPath (default "" file) ;; rejected e
  | WriteError e :: _ => rejected e
  | WriteFinish :: _ => store zipPath (default "" file +:+ content queue) ;; mret tt
  end.

(** What [extractZip] takes from its environment: the host, the choice of
    [mkdtemp], the events of the download, and the zip format: the entries
    of an archive, by path relative to the directory of extraction, or the
    error of a file that is not an archive. *)
Record env := Env {
  host : Fs.host;
  suffix : string;
  download : list event;
  decode : string -> result (list (path * node));
}.

Definition extract_entries (dir : path) (entries : list (path * node)) (fs : files) : files :=
  foldr (fun '(rel, n) fs => <[dir ++ rel := n]> fs) fs entries.

(** [unzip(zipPath, { dir })] *)
Definition unzip (E : env) (zipPath dir : path) : async unit :=
  call_ (Unzip zipPath dir) ;;
  await_fs (fun fs =>
    match fs !! zipPath with
    | Some (File data) =>
        match decode E data with
        | Ok entries => Ok (tt, extract_entries dir entries fs)
        | Err e => Err e
        end
    | _ => Err (SystemError "ENOENT")
    end).

Definition mkdir (p : path) : async unit :=
  call_ (Mkdir p) ;;
  await_fs (fun fs =>
    match Fs.mkdir_recursive p fs with Ok fs' => Ok (tt, fs') | Err e => Err e end).

Definition tmpdir (E : env) (name : string) : async path :=
  call_ (Tmpdir name) ;; await_fs (Fs.tmpdir (host E) (suffix E) name).

Definition clean (E : env) (name : string) : async unit :=
  call_ (Clean name) ;;
  await_fs (fun fs =>
    match Fs.clean (host E) name fs with Ok fs' => Ok (tt, fs') | Err e => Err e end).

(** [fs.createWriteStream(p)]: the stream opens the file later. *)
Definition createWriteStream (p : path) : async unit :=
  call_ (CreateWriteStream p).

Definition extractZip (E : env) (downloadPath : path) : async path :=
  call_ Pause ;;
  mkdir downloadPath ;;
  temp ← tmpdir E "zip-staging" ;
  let zipPath := path_join temp "archive.zip" in
  createWriteStream zipPath ;;
  call_ PipeResponse ;;
  call_ OnResponseError ;;
  (call_ OnWriteError ;;
   call_ OnWriteFinish ;;
   call_ Resume ;;
   write_settled zipPath None [] (download E)) ;;
  unzip E zipPath downloadPath ;;
  clean E "zip-staging" ;;
  mret downloadPath.

(** The staging directory of [extractZip]. *)
Definition staging (E : env) : path :=
  path_join (Fs.tmp (host E)) "coder/zip-staging".

(** An environment to try [extractZip] in: the temporary directory is
    [/tmp], and an archive holds one file; [valid] tells whether the payload
    is an archive. *)
Definition sample_env (download : list event) (valid : bool) : env :=
  Env (Fs.Host ["tmp"] ∅) "abc123" download
    (fun data => if valid then Ok [(["bin"], Dir); (["bin"; "coder"], File data)]
                 else Err (Error "not a zip")).

End Zip.

(** ** [split] *)

Module Split.

(** [s.startsWith(d)] *)
Fixpoint starts_with (d s : string) : bool :=
  match d, s with
  | EmptyString, _ => true
  | String a d', String b s' => bool_decide (a = b) && starts_with d' s'
  | String _ _, EmptyString => false
  end.

(** [String.prototype.indexOf]: the index of the first occurrence of [d] in
    [s], or [-1]. *)
Fixpoint String_indexOf (s d : string) : Z :=
  if starts_with d s then 0%Z
  else match s with
       | EmptyString => (-1)%Z
       | String _ s' =>
           let i := String_indexOf s' d in
           if decide (i = (-1)%Z) then (-1)%Z else (i + 1)%Z
       end.

(** An index argument of [substring] is brought into [0 .. length]. *)
Definition clamp (len : nat) (i : Z) : nat :=
  Z.to_nat (Z.max 0 (Z.min i (Z.of_nat len))).

(** [String.prototype.substring(start, end)]; without [end] the substring
    goes to the end of the string.  The two indices are swapped when
    [start] is the greater. *)
Definition String_substring (s : string) (start : Z) (end_ : option Z) : string :=
  let len := String.length s in
  let a := clamp len start in
  let b := match end_ with Some e => clamp len e | None => len end in
  String.substring (Nat.min a b) (Nat.max a b - Nat.min a b) s.

(** The white space and line terminators of JavaScript among the characters
    modelled: tab, line feed, vertical tab, form feed, carriage return,
    space and no-break space. *)
Definition is_white (c : ascii) : bool :=
  match c with
  | "009" | "010" | "011" | "012" | "013" | " " | "160" => true
  | _ => false
  end%char.

Fixpoint trim_start (s : string) : string :=
  match s with
  | EmptyString => EmptyString
  | String c s' => if is_white c then trim_start s' else s
  end.

Fixpoint trim_end (s : string) : string :=
  match s with
  | EmptyString => EmptyString
  | String c s' =>
      match trim_end s' with
      | EmptyString => if is_white c then EmptyString else String c EmptyString
      | t => String c t
      end
  end.

(** [String.prototype.trim] *)
Definition String_trim (s : string) : string := trim_end (trim_start s).

(** [split(str, delimiter)] *)
Definition split (str delimiter : string) : string * string :=
  let index := String_indexOf str delimiter in
  if decide (index <> (-1)%Z)
  then (String_trim (String_substring str 0 (Some index)),
        String_substring str (index + 1) None)
  else (str, "").

(** [s] starts, and ends, with a white character. *)
Definition white_start (s : string) : bool :=
  match s with String c _ => is_white c | EmptyString => false end.

Fixpoint white_end (s : string) : bool :=
  match s with
  | EmptyString => false
  | String c EmptyString => is_white c
  | String _ s' => white_end s'
  end.

End Split.

(** ** [context] *)

Module Context.

Section context.

(** [vscode.ExtensionContext] *)
Context {ExtensionContext : Type}.

Definition not_set : error :=
  Error "Context has not been set; has the extension been activated?".

(** [context(ctx?)], on the variable [_context]: the new value of the
    variable, and what the call returns or throws. *)
Definition context (ctx : option ExtensionContext) (_context : option ExtensionContext)
    : option ExtensionContext * result ExtensionContext :=
  match ctx with
  | Some c => (Some c, Ok c)
  | None =>
      match _context with
      | None => (None, Err not_set)
      | Some c => (Some c, Ok c)
      end
  end.

(** The variable after a sequence of calls, from [let _context]. *)
Definition after (calls : list (option ExtensionContext)) : option ExtensionContext :=
  fold_left (fun st ctx => (context ctx st).1) calls None.

End context.

End Context.

(** ** [getTarget] and [getAssetUrl] *)

Module Target.

(** [process.platform] and [process.arch] *)
Record process := Process { platform : string; arch : string }.

Definition getTarget (proc : process) : string :=
  if decide (platform proc = "win32") then "windows"
  else
    let arch :=
      if decide (arch proc = "x64") then "amd64"
      else if decide (arch proc = "x32") then "amd32"
      else arch proc in
    platform proc +:+ "-" +:+ arch.

Definition assetFilename (proc : process) : string :=
  "coder-cli-" +:+ getTarget proc +:+
  (if decide (platform proc = "linux") then ".tar.gz" else ".zip").

Definition getAssetUrl (proc : process) (version : string) : string :=
  if decide (version = "latest")
  then "https://github.com/cdr/coder-cli/releases/" +:+ version +:+ "/download/" +:+
       assetFilename proc
  else "https://github.com/cdr/coder-cli/releases/download/" +:+ version +:+ "/" +:+
       assetFilename proc.

(** [s.endsWith(suffix)] *)
Definition ends_with (suffix s : string) : Prop := exists pre, s = pre +:+ suffix.

End Target.

(** ** [mediaDir] *)

(** [path.join(base, ...parts)] on POSIX, for a normalized absolute [base]. *)
Definition path_join_all (base : path) (parts : list string) : path :=
  normalize (rev base) (concat (String_split "/"%char <$> parts)).

(** [mediaDir], from [__filename]. *)
Definition mediaDir (__filename : path) : path :=
  path_join_all __filename [".."; ".."; "media"].

(** ** What [onLine] and the extractors are measured against *)

(** The number of occurrences of [c] in [s]. *)
Fixpoint count_char (c : ascii) (s : string) : nat :=
  match s with
  | EmptyString => 0
  | String c' s' => (if decide (c' = c) then 1 else 0) + count_char c s'
  end.

(** * Properties *)

(** ** Strings *)

Lemma app_empty_r (s : string) : s +:+ "" = s.
Proof. induction s; simpl; congruence. Qed.

Lemma app_assoc' (a b c : string) : (a +:+ b) +:+ c = a +:+ b +:+ c.
Proof. induction a; simpl; congruence. Qed.

(** ** [split] *)

Example split_lines : String_split LF ("a" +:+ nl +:+ "b") = ["a"; "b"].
Proof. reflexivity. Qed.

Example split_trailing : String_split LF ("a" +:+ nl) = ["a"; ""].
Proof. reflexivity. Qed.

Example split_empty : String_split LF "" = [""].
Proof. reflexivity. Qed.

Example split_blank : String_split LF (nl +:+ nl) = [""; ""; ""].
Proof. reflexivity. Qed.

Lemma split_nonempty sep s : String_split sep s <> [].
Proof.
  destruct s as [|c s]; simpl; [done|].
  case_decide; [done|]. by destruct (String_split sep s).
Qed.

Lemma split_cons sep s : exists seg segs, String_split sep s = seg :: segs.
Proof.
  destruct (String_split sep s) as [|seg segs] eqn:E; [by apply split_nonempty in E|eauto].
Qed.

Lemma split_no_sep sep s : occurs sep s = false -> String_split sep s = [s].
Proof.
  induction s as [|c s IH]; simpl; [done|].
  intros [Hc Hs]%orb_false_iff. apply bool_decide_eq_false in Hc.
  rewrite decide_False by done. by rewrite IH.
Qed.

(** No segment contains the separator. *)
Lemma split_segments sep s seg : In seg (String_split sep s) -> occurs sep seg = false.
Proof.
  revert seg. induction s as [|c s IH]; simpl; intros seg.
  - by intros [<-|[]].
  - case_decide as Hc.
    + intros [<-|Hin]; [done|by apply IH].
    + destruct (split_cons sep s) as (x & xs & E). rewrite E in *.
      intros [<-|Hin]; simpl.
      * rewrite bool_decide_eq_false_2 by done. apply IH. by left.
      * apply IH. by right.
Qed.

(** Splitting a concatenation: the last segment of the left part is continued
    by the right part. *)
Lemma split_app sep (a b : string) :
  String_split sep (a +:+ b) =
  removelast (String_split sep a) ++ String_split sep (List.last (String_split sep a) "" +:+ b).
Proof.
  induction a as [|c a IH]; simpl; [done|].
  case_decide as Hc.
  - rewrite IH. destruct (split_cons sep a) as (x & xs & E). by rewrite E.
  - rewrite IH. destruct (split_cons sep a) as (x & xs & E). rewrite E.
    destruct xs as [|y ys]; simpl.
    + rewrite decide_False by done.
      by destruct (split_cons sep (x +:+ b)) as (z & zs & ->).
    + done.
Qed.

Lemma join_split sep s : Array_join (String sep "") (String_split sep s) = s.
Proof.
  induction s as [|c s IH]; simpl; [done|].
  case_decide as Hc.
  - destruct (split_cons sep s) as (x & xs & E). rewrite E in *.
    subst c. simpl. simpl in IH. by rewrite IH.
  - destruct (split_cons sep s) as (x & xs & E). rewrite E in *.
    destruct xs; simpl in *; by rewrite IH.
Qed.

Lemma terminated_cons sep line lines :
  terminated sep (line :: lines) = line +:+ sep +:+ terminated sep lines.
Proof. unfold terminated. simpl. apply app_assoc'. Qed.

Lemma split_unterminated sep s :
  terminated (String sep "") (removelast (String_split sep s)) +:+ List.last (String_split sep s) "" = s.
Proof.
  induction s as [|c s IH]; simpl; [done|].
  destruct (split_cons sep s) as (x & xs & E). rewrite E in *.
  case_decide as Hc.
  - subst c. change (List.last ("" :: x :: xs) "") with (List.last (x :: xs) "").
    change (removelast ("" :: x :: xs)) with ("" :: removelast (x :: xs)).
    by rewrite terminated_cons, !app_assoc', IH.
  - destruct xs as [|y ys]; [simpl in *; by rewrite IH|].
    change (List.last (String c x :: y :: ys) "") with (List.last (x :: y :: ys) "").
    change (removelast (String c x :: y :: ys)) with (String c x :: removelast (y :: ys)).
    change (removelast (x :: y :: ys)) with (x :: removelast (y :: ys)) in IH.
    rewrite terminated_cons in *. rewrite !app_assoc' in *. simpl. by f_equal.
Qed.

Lemma split_last_no_sep sep s : occurs sep (List.last (String_split sep s) "") = false.
Proof.
  apply (split_segments sep s).
  destruct (split_cons sep s) as (x & xs & E). rewrite E.
  destruct (exists_last (l := x :: xs)) as (l' & a & ->); [done|].
  rewrite last_last. apply in_app_iff. right. by left.
Qed.

Lemma split_terminated sep s :
  occurs sep s = false -> String_split sep (s +:+ String sep "") = [s; ""].
Proof.
  induction s as [|c s IH]; simpl.
  - intros _. by rewrite decide_True.
  - intros [Hc Hs]%orb_false_iff. apply bool_decide_eq_false in Hc.
    rewrite decide_False by done. by rewrite IH.
Qed.

(** The text after the last separator of a string that is empty or ends with
    the separator is empty. *)
Lemma split_last_terminated sep (s : string) :
  s = "" \/ (exists s', s = s' +:+ String sep "") -> List.last (String_split sep s) "" = "".
Proof.
  intros [->|[s' ->]]; [done|].
  rewrite split_app, split_terminated by apply split_last_no_sep.
  change [List.last (String_split sep s') ""; ""] with ([List.last (String_split sep s') ""] ++ [""]).
  by rewrite app_assoc, last_last.
Qed.

(** ** [onLine] *)

Example onLine_two_chunks :
  Lines.onLine ["he"; "llo" +:+ nl +:+ "wor"; "ld"] = ["hello"; "world"].
Proof. reflexivity. Qed.

Example onLine_no_data : Lines.onLine [] = [""].
Proof. reflexivity. Qed.

Section onLine_facts.
Import Lines.

Lemma nth_pred_length (l : list string) : nth (length l - 1) l "" = List.last l "".
Proof.
  induction l as [|x [|y l] IH]; [done..|].
  simpl in *. by rewrite Nat.sub_0_r in IH.
Qed.

(** The loop of the [data] handler passes the first [n] segments to
    [callback], in order, and leaves [buffer] alone. *)
Lemma loop_calls (segs : list string) n st :
  n <= length segs ->
  fold_left (fun st i => callback (nth i segs "") st) (seq 0 n) st =
  State (buffer st) (calls st ++ take n segs).
Proof.
  induction n as [|n IH]; intros Hn.
  - destruct st. simpl. by rewrite take_0, app_nil_r.
  - rewrite seq_S, fold_left_app, IH by lia. simpl. unfold callback. simpl.
    destruct (lookup_lt_is_Some_2 segs n) as [x Hx]; [lia|].
    rewrite (take_S_r _ _ _ Hx), (nth_lookup_Some _ _ _ _ Hx).
    by rewrite app_assoc.
Qed.

Lemma on_data_split d st :
  on_data d st =
  State (List.last (String_split LF (buffer st +:+ d)) "")
        (calls st ++ removelast (String_split LF (buffer st +:+ d))).
Proof.
  unfold on_data. cbv zeta. rewrite loop_calls by lia. simpl.
  by rewrite nth_pred_length, removelast_firstn_len, Nat.sub_1_r.
Qed.

Lemma on_data_buffer d st : occurs LF (buffer (on_data d st)) = false.
Proof. rewrite on_data_split. apply split_last_no_sep. Qed.

Lemma feed_cons d chunks st : feed (d :: chunks) st = feed chunks (on_data d st).
Proof. done. Qed.

(** The calls made so far, followed by the buffer, are the segments of what
    has been received. *)
Lemma feed_split chunks st :
  occurs LF (buffer st) = false ->
  calls (feed chunks st) ++ [buffer (feed chunks st)] =
  calls st ++ String_split LF (buffer st +:+ content chunks).
Proof.
  revert st. induction chunks as [|d chunks IH]; intros st Hst.
  - simpl. by rewrite app_empty_r, split_no_sep.
  - rewrite feed_cons, IH by apply on_data_buffer.
    rewrite on_data_split. simpl.
    by rewrite <- app_assoc', (split_app LF (buffer st +:+ d)), app_assoc.
Qed.

Lemma onLine_feed chunks :
  onLine chunks = calls (feed chunks init) ++ [buffer (feed chunks init)].
Proof. unfold onLine, feed. by rewrite fold_left_app. Qed.

(** [onLine] delivers the segments of the whole content. *)
Lemma onLine_split chunks : onLine chunks = String_split LF (content chunks).
Proof. by rewrite onLine_feed, feed_split. Qed.

End onLine_facts.

(** C1. The lines [onLine] delivers depend on the concatenated content of
    the stream only: two streams whose chunks concatenate to the same text
    deliver the same sequence of lines, however the text is cut into data
    chunks. *)
Theorem onLine_chunking_invariant (chunks1 chunks2 : list string) :
  content chunks1 = content chunks2 ->
  Lines.onLine chunks1 = Lines.onLine chunks2.
Proof. intros H. by rewrite !onLine_split, H. Qed.

Lemma onLine_chunking_invariant_witness :
  content ["ab" +:+ nl +:+ "c"; "d" +:+ nl; "e"] = content ["a"; "b" +:+ nl +:+ "cd"; nl +:+ "e"] /\
  Lines.onLine ["ab" +:+ nl +:+ "c"; "d" +:+ nl; "e"] =
  Lines.onLine ["a"; "b" +:+ nl +:+ "cd"; nl +:+ "e"].
Proof.
  split; [reflexivity|].
  apply (onLine_chunking_invariant
           ["ab" +:+ nl +:+ "c"; "d" +:+ nl; "e"] ["a"; "b" +:+ nl +:+ "cd"; nl +:+ "e"]).
  reflexivity.
Defined.

(** C4. When the stream ends the [end] handler calls [callback] once, with
    the buffer: the lines delivered are the calls made by the [data]
    handlers followed by that one call.  For a content [head +:+ tail] whose
    [tail] has no newline and whose [head] is empty or ends with a newline,
    the [data] handlers deliver the newline-terminated lines of [head] and
    nothing else, and the [end] handler delivers [tail]: the empty string for
    a stream of zero bytes, the final partial line otherwise. *)
Theorem onLine_end_flush (chunks : list string) (head tail : string) :
  content chunks = head +:+ tail ->
  occurs LF tail = false ->
  head = "" \/ (exists h, head = h +:+ nl) ->
  let st := Lines.feed chunks Lines.init in
  Lines.calls (Lines.on_end st) = Lines.calls st ++ [Lines.buffer st] /\
  Lines.onLine chunks = Lines.calls st ++ [tail] /\
  Lines.buffer st = tail /\
  terminated nl (Lines.calls st) = head /\
  Forall (fun line => occurs LF line = false) (Lines.calls st) /\
  (head = "" -> Lines.onLine chunks = [tail]).
Proof.
  intros Hc Htail Hhead st.
  assert (Hst : Lines.calls st ++ [Lines.buffer st] = removelast (String_split LF head) ++ [tail]).
  { unfold st. rewrite feed_split by done. simpl. rewrite Hc, split_app.
    rewrite (split_last_terminated LF head Hhead). simpl.
    by rewrite (split_no_sep LF tail). }
  apply app_inj_tail in Hst as [Hcalls Hbuf].
  assert (Hterm : terminated nl (Lines.calls st) = head).
  { rewrite Hcalls. rewrite <- (split_unterminated LF head) at 2.
    by rewrite (split_last_terminated LF head Hhead), app_empty_r. }
  split_and!; try done.
  - by rewrite onLine_feed, <- Hbuf.
  - rewrite Hcalls. apply Forall_forall. intros line Hin%list_elem_of_In.
    apply (split_segments LF head). destruct (split_cons LF head) as (x & xs & E).
    rewrite (app_removelast_last (l := String_split LF head) "") by apply split_nonempty.
    apply in_app_iff. by left.
  - intros ->. rewrite onLine_feed. fold st. by rewrite Hcalls, Hbuf.
Qed.

Lemma onLine_end_flush_witness :
  Lines.onLine ["x" +:+ nl +:+ "y"; "z" +:+ nl +:+ "ta"; "il"] = ["x"; "yz"; "tail"] /\
  Lines.onLine [] = [""].
Proof.
  split.
  - pose proof (onLine_end_flush ["x" +:+ nl +:+ "y"; "z" +:+ nl +:+ "ta"; "il"]
                  ("x" +:+ nl +:+ "yz" +:+ nl) "tail"
                  eq_refl eq_refl (or_intror (ex_intro _ ("x" +:+ nl +:+ "yz") eq_refl)))
      as (_ & H & _).
    exact H.
  - pose proof (onLine_end_flush [] "" "" eq_refl eq_refl (or_introl eq_refl))
      as (_ & _ & _ & _ & _ & H).
    exact (H eq_refl).
Defined.

(** C5 fails as stated: for the content ["a\nb\nc\n"], [callback] is called
    a fourth time, with the empty string, when the stream ends. *)
Lemma onLine_abc_not_three_lines :
  Lines.onLine ["a" +:+ nl +:+ "b" +:+ nl +:+ "c" +:+ nl] <> ["a"; "b"; "c"].
Proof. vm_compute. discriminate. Qed.

(** C5, amended. For the content ["a\nb\nc\n"], however it is cut into
    chunks, [onLine] delivers ["a"], ["b"], ["c"] and then the empty string:
    the three lines in order, followed by the one end-of-stream call with the
    empty remainder. *)
Theorem onLine_abc (chunks : list string) :
  content chunks = "a" +:+ nl +:+ "b" +:+ nl +:+ "c" +:+ nl ->
  Lines.onLine chunks = ["a"; "b"; "c"; ""].
Proof. intros H. by rewrite onLine_split, H. Qed.

Lemma onLine_abc_witness :
  Lines.onLine ["a" +:+ nl; "b" +:+ nl +:+ "c"; nl] = ["a"; "b"; "c"; ""].
Proof. apply (onLine_abc ["a" +:+ nl; "b" +:+ nl +:+ "c"; nl]). reflexivity. Defined.

(** C10. The lines [onLine] delivers, joined with ["\n"], are the content of
    the stream, and no delivered line contains a newline. *)
Theorem onLine_roundtrip (chunks : list string) :
  Array_join nl (Lines.onLine chunks) = content chunks /\
  Forall (fun line => occurs LF line = false) (Lines.onLine chunks).
Proof.
  rewrite onLine_split. split; [apply join_split|].
  apply Forall_forall. intros line Hin%list_elem_of_In. by apply (split_segments LF _ _ Hin).
Qed.

(** ** [wrapExit] *)

Section wrapExit_facts.
Import Exit.
Context (proc : ChildProcess).






End wrapExit_facts.



(** ** Paths and [clean] *)

Example path_join_staging : path_join ["tmp"] "coder/zip-staging" = ["tmp"; "coder"; "zip-staging"].
Proof. reflexivity. Qed.

Example path_join_dots : path_join ["tmp"] "coder/../x/./y//" = ["tmp"; "x"; "y"].
Proof. reflexivity. Qed.

Example path_join_root : path_join ["tmp"] "coder/../../.." = [].
Proof. reflexivity. Qed.

Example tmpdir_staging :
  Fs.tmpdir (Fs.Host ["tmp"] ∅) "abc123" "zip-staging" ∅ =
  Ok (["tmp"; "coder"; "zip-staging"; "tmp-abc123"],
      <[ ["tmp"; "coder"; "zip-staging"; "tmp-abc123"] := Dir ]>
        (<[ ["tmp"] := Dir ]> (<[ ["tmp"; "coder"] := Dir ]>
           (<[ ["tmp"; "coder"; "zip-staging"] := Dir ]> ∅)))).
Proof. reflexivity. Qed.

Section clean_facts.
Import Fs.

Lemma normalize_plain stack (seg : string) segs :
  seg <> "" -> seg <> "." -> seg <> ".." ->
  normalize stack (seg :: segs) = normalize (seg :: stack) segs.
Proof.
  intros H1 H2 H3. simpl.
  rewrite decide_False by (intros [?|?]; done). by rewrite decide_False.
Qed.

(** For a name that is a single path segment the directory is
    [<tmp>/coder/<name>]. *)
Lemma path_join_coder (base : path) (name : string) :
  occurs "/"%char name = false -> name <> "" -> name <> "." -> name <> ".." ->
  path_join base ("coder/" +:+ name) = base ++ ["coder"; name].
Proof.
  intros Hsep H1 H2 H3. unfold path_join.
  rewrite (split_app "/"%char "coder/" name).
  change (String_split "/"%char "coder/") with ["coder"; ""].
  change (removelast ["coder"; ""] ++ String_split "/"%char (List.last ["coder"; ""] "" +:+ name))
    with ("coder" :: String_split "/"%char name).
  rewrite split_no_sep by done.
  rewrite (normalize_plain _ "coder") by done.
  rewrite (normalize_plain _ name) by done.
  simpl. rewrite rev_involutive. by rewrite <- !app_assoc.
Qed.

Lemma entries_below_lookup (dir : path) (fs : files) (p : path) :
  entries_below dir fs !! p = if decide (below dir p) then fs !! p else None.
Proof.
  unfold entries_below. case_decide as Hb.
  - destruct (fs !! p) as [n|] eqn:E.
    + by apply map_lookup_filter_Some.
    + apply map_lookup_filter_None. left. done.
  - apply map_lookup_filter_None. right. intros n _. done.
Qed.

Lemma outside_lookup (dir : path) (fs : files) (p : path) :
  filter (fun kv : path * node => ~ below dir kv.1) fs !! p =
  if decide (below dir p) then None else fs !! p.
Proof.
  case_decide as Hb.
  - apply map_lookup_filter_None. right. intros n _ H. by apply H.
  - destruct (fs !! p) as [n|] eqn:E.
    + by apply map_lookup_filter_Some.
    + apply map_lookup_filter_None. by left.
Qed.

(** Nothing exists at or below a path that does not exist. *)
Lemma closed_missing (fs : files) (dir p : path) :
  closed fs -> exists_ fs dir = false -> below dir p -> fs !! p = None.
Proof.
  intros Hcl Hdir Hb. destruct dir as [|seg dir]; [done|]. simpl in Hdir.
  apply bool_decide_eq_false in Hdir.
  destruct (fs !! p) as [n|] eqn:E; [|done]. exfalso. apply Hdir.
  destruct (decide (seg :: dir = p)) as [->|Hne]; [by eexists|].
  exists Dir. apply (Hcl p (seg :: dir)); [by eexists|done..].
Qed.

Lemma filter_outside_id (dir : path) (fs : files) :
  (forall p, below dir p -> fs !! p = None) ->
  filter (fun kv : path * node => ~ below dir kv.1) fs = fs.
Proof.
  intros Hnone. apply map_filter_id. intros p n Hp Hb. simpl in Hb.
  by rewrite Hnone in Hp.
Qed.

(** The recursive [rmdir] on a path that does not exist. *)
Lemma rmdir_recursive_missing (lenient : bool) (denied : gset path) (dir : path) (fs : files) :
  closed fs -> exists_ fs dir = false ->
  rmdir true lenient denied dir fs =
  match blocked denied fs dir with
  | Some e => Err e
  | None => if lenient then Ok fs else Err (SystemError "ENOENT")
  end.
Proof.
  intros Hcl Hdir. unfold rmdir. destruct (blocked denied fs dir); [done|].
  destruct dir as [|seg dir]; [done|].
  pose proof Hdir as Hex. simpl in Hex. apply bool_decide_eq_false in Hex.
  destruct (_ !! _) as [n|] eqn:E; [destruct Hex; by eexists|].
  destruct lenient; [|done]. f_equal. apply filter_outside_id.
  intros p Hp. by apply (closed_missing fs (seg :: dir)).
Qed.

Lemma rmdir_recursive_ok (lenient : bool) (denied : gset path) (dir : path) (fs fs' : files) :
  rmdir true lenient denied dir fs = Ok fs' ->
  fs' = filter (fun kv : path * node => ~ below dir kv.1) fs.
Proof. unfold rmdir. repeat case_match; congruence. Qed.

Lemma rmdir_recursive_reached (lenient : bool) (denied : gset path) (dir : path) (fs fs' : files) :
  rmdir true lenient denied dir fs = Ok fs' -> blocked denied fs dir = None.
Proof. unfold rmdir. by destruct (blocked denied fs dir). Qed.

(** The recursive [rmdir] of a directory that can be reached. *)
Lemma rmdir_recursive_dir (lenient : bool) (denied : gset path) (dir : path) (fs : files) :
  is_dir fs dir = true -> blocked denied fs dir = None ->
  rmdir true lenient denied dir fs = Ok (filter (fun kv : path * node => ~ below dir kv.1) fs).
Proof.
  intros Hdir Hb. unfold rmdir. rewrite Hb. unfold is_dir in Hdir.
  destruct dir as [|seg dir]; [done|]. by destruct (_ !! _) as [[|data]|].
Qed.

Lemma above_shorter (p q : path) : q ∈ above p -> length q < length p.
Proof.
  unfold above. intros (n & -> & Hn)%list_elem_of_fmap.
  apply elem_of_seq in Hn. rewrite length_take. lia.
Qed.

Lemma above_ancestors (p q : path) : q ∈ above p -> q ∈ ancestors p.
Proof.
  unfold above, ancestors. intros (n & -> & Hn)%list_elem_of_fmap.
  apply list_elem_of_fmap. exists n. split; [done|].
  apply elem_of_seq in Hn. apply elem_of_seq. lia.
Qed.

Lemma above_not_below (p q : path) : q ∈ above p -> ~ below p q.
Proof.
  intros Hq%above_shorter [k ->]. rewrite length_app in Hq. lia.
Qed.

(** Whether a path can be reached depends on the entries above it. *)
Lemma blocked_at_ext (denied : gset path) (fs fs' : files) (dirs : list path) :
  (forall q, q ∈ dirs -> fs' !! q = fs !! q) ->
  blocked_at denied fs' dirs = blocked_at denied fs dirs.
Proof.
  induction dirs as [|q dirs IH]; intros Hsame; [done|]. simpl.
  unfold is_file. rewrite (Hsame q) by apply list_elem_of_here.
  rewrite IH; [done|]. intros q' Hq'. apply Hsame. by apply list_elem_of_further.
Qed.

Lemma blocked_at_dirs (fs : files) (dirs : list path) :
  (forall q, q ∈ dirs -> fs !! q = Some Dir) -> blocked_at ∅ fs dirs = None.
Proof.
  induction dirs as [|q dirs IH]; intros Hdirs; [done|]. simpl.
  unfold is_file. rewrite (Hdirs q) by apply list_elem_of_here.
  rewrite bool_decide_eq_false_2 by set_solver.
  apply IH. intros q' Hq'. apply Hdirs. by apply list_elem_of_further.
Qed.

End clean_facts.

(** C8 does not hold as it stands: for a directory that does not exist
    [clean] rejects with ENOENT where the recursive [rmdir] is the one of
    Node 16 and later, and on every runtime it rejects with ENOTDIR when a
    regular file stands where a directory above is expected, here
    [/tmp/coder]. *)
Lemma clean_missing_rejects :
  Fs.exists_ {[ ["tmp"] := Dir ]} ["tmp"; "coder"; "zip-staging"] = false /\
  Fs.clean (Fs.HostOn ["tmp"] ∅ false) "zip-staging" {[ ["tmp"] := Dir ]} =
    Err (SystemError "ENOENT") /\
  Fs.exists_ {[ ["tmp"] := Dir; ["tmp"; "coder"] := File "" ]} ["tmp"; "coder"; "zip-staging"] = false /\
  Fs.clean (Fs.HostOn ["tmp"] ∅ true) "zip-staging"
    {[ ["tmp"] := Dir; ["tmp"; "coder"] := File "" ]} = Err (SystemError "ENOTDIR") /\
  Fs.clean (Fs.HostOn ["tmp"] ∅ false) "zip-staging"
    {[ ["tmp"] := Dir; ["tmp"; "coder"] := File "" ]} = Err (SystemError "ENOTDIR").
Proof. split_and!; reflexivity. Qed.

(** C8, amended.  [clean(name)] removes [path.join(os.tmpdir(), "coder/" +
    name)] with all below it.  For a directory that does not exist the call
    rejects when the directory cannot be reached (a regular file or a closed
    directory above it); when it can, the call resolves and leaves the file
    system as it is under the recursive [rmdir] of Node 12 to 15, and rejects
    with ENOENT under the one of Node 16 and later.  A directory that exists
    and can be reached is removed on every runtime.  When the call resolves
    nothing is left at or below the directory and the entries outside are
    untouched; under Node 12 to 15 a second call then resolves and changes
    nothing. *)
Theorem clean_missing_dir (h : Fs.host) (name : string) (fs : files) :
  let dir := path_join (Fs.tmp h) ("coder/" +:+ name) in
  (Fs.closed fs -> Fs.exists_ fs dir = false ->
   Fs.clean h name fs =
   match Fs.blocked (Fs.denied h) fs dir with
   | Some e => Err e
   | None => if Fs.rmdir_lenient h then Ok fs else Err (SystemError "ENOENT")
   end) /\
  (Fs.is_dir fs dir = true -> Fs.blocked (Fs.denied h) fs dir = None ->
   exists fs', Fs.clean h name fs = Ok fs') /\
  (forall fs', Fs.clean h name fs = Ok fs' ->
     (forall p, Fs.below dir p -> fs' !! p = None) /\
     (forall p, ~ Fs.below dir p -> fs' !! p = fs !! p) /\
     (Fs.rmdir_lenient h = true -> Fs.clean h name fs' = Ok fs')) /\
  (occurs "/"%char name = false -> name <> "" -> name <> "." -> name <> ".." ->
   dir = Fs.tmp h ++ ["coder"; name]).
Proof.
  intros dir. split_and!.
  - intros Hcl Hdir. by apply rmdir_recursive_missing.
  - intros Hdir Hb. eexists. by apply rmdir_recursive_dir.
  - intros fs' Hok. pose proof (rmdir_recursive_reached _ _ _ _ _ Hok) as Hb.
    apply rmdir_recursive_ok in Hok. fold dir in Hb.
    assert (Hbelow : forall p, Fs.below dir p -> fs' !! p = None).
    { intros p Hp. subst fs'. fold dir. rewrite outside_lookup. by rewrite decide_True. }
    assert (Houtside : forall p, ~ Fs.below dir p -> fs' !! p = fs !! p).
    { intros p Hp. subst fs'. fold dir. rewrite outside_lookup. by rewrite decide_False. }
    split_and!; [done..|]. intros Hlen.
    unfold Fs.clean, Fs.rmdir. fold dir. rewrite Hlen.
    unfold Fs.blocked in *.
    rewrite (blocked_at_ext _ fs fs') by (intros q Hq; by apply Houtside, above_not_below).
    rewrite Hb. rewrite (filter_outside_id dir fs') by done.
    pose proof (Hbelow dir (reflexivity dir)) as Hdir. clearbody dir.
    destruct dir as [|seg dir]; [done|]. by rewrite Hdir.
  - apply path_join_coder.
Qed.

Lemma clean_missing_dir_witness :
  Fs.clean (Fs.Host ["tmp"] ∅) "zip-staging" {[ ["tmp"] := Dir ]} = Ok {[ ["tmp"] := Dir ]}.
Proof.
  assert (Hcl : Fs.closed ({[ ["tmp"] := Dir ]} : files)).
  { intros p q [n Hp] Hq Hne1 Hne2.
    apply lookup_singleton_Some in Hp as [<- _].
    destruct Hq as [k Hk]. destruct q as [|x [|y q]]; simplify_eq/=; done. }
  exact (proj1 (clean_missing_dir (Fs.Host ["tmp"] ∅) "zip-staging" {[ ["tmp"] := Dir ]})
           Hcl eq_refl).
Defined.

(** ** [mkdir] *)

Lemma foldr_insert_dir (qs : list path) (fs : files) (q : path) :
  q ∈ qs -> foldr (fun q fs => <[q := Dir]> fs) fs qs !! q = Some Dir.
Proof.
  induction qs as [|q' qs IH]; [by intros ?%elem_of_nil|].
  intros [->|Hin]%elem_of_cons; simpl.
  - by rewrite lookup_insert_eq.
  - destruct (decide (q' = q)) as [->|Hne]; [by rewrite lookup_insert_eq|].
    rewrite lookup_insert_ne by done. by apply IH.
Qed.

Lemma ancestors_self (p : path) : p <> [] -> p ∈ Fs.ancestors p.
Proof.
  intros Hp. unfold Fs.ancestors. apply list_elem_of_fmap.
  exists (length p). split; [by rewrite firstn_all|].
  apply elem_of_seq. destruct p; [done|]. simpl. lia.
Qed.

(** After [mkdir] with [recursive] the directory exists. *)
Lemma mkdir_recursive_is_dir (p : path) (fs fs' : files) :
  Fs.mkdir_recursive p fs = Ok fs' -> Fs.is_dir fs' p = true.
Proof.
  unfold Fs.mkdir_recursive. case_match; [done|]. intros [= <-].
  destruct p as [|seg p]; [done|].
  unfold Fs.is_dir. by rewrite foldr_insert_dir by (by apply ancestors_self).
Qed.

(** ** [extractTar] *)

Section extractTar_facts.
Import Tar.
Context (pr : bool) (p : path).

Lemma registered_true c st : c ∈ calls st -> registered c st = true.
Proof. intros H. by apply bool_decide_eq_true. Qed.

Lemma registered_false c st : c ∉ calls st -> registered c st = false.
Proof. intros H. by apply bool_decide_eq_false. Qed.

Lemma before_unregistered st c :
  before_wiring p st -> c <> Pause -> c <> Mkdir p -> registered c st = false.
Proof.
  intros [Hc _ _ _ _ _ _ _] H1 H2. apply registered_false. rewrite Hc.
  unfold entry_calls. intros Hin.
  apply elem_of_cons in Hin as [->|Hin]; [done|].
  apply elem_of_cons in Hin as [->|Hin]; [done|]. by apply elem_of_nil in Hin.
Qed.

Lemma after_registered st c :
  after_wiring p st -> c ∈ wiring_calls p -> registered c st = true.
Proof.
  intros [(extra & Hc & _) _ _ _ _ _ _] Hin. apply registered_true. rewrite Hc.
  apply elem_of_app. right. apply elem_of_app. by left.
Qed.

Lemma start_before fs0 : before_wiring p (start p fs0).
Proof. split; try done. by left. Qed.

Lemma wire_after st fs' :
  before_wiring p st -> Fs.is_dir fs' p = true ->
  after_wiring p (wire pr p (set_fs fs' st)) /\
  awaited (wire pr p (set_fs fs' st)) = Pending /\
  decompress (wire pr p (set_fs fs' st)) = Live /\
  destination (wire pr p (set_fs fs' st)) = Live /\
  delivered (wire pr p (set_fs fs' st)) = [].
Proof.
  intros [Hc Hf Hdec Hdst Haw Hdl Hlo Hpc] Hdir.
  destruct st as [fs fl cs dec dst aw dl lo un c]. simpl in *. subst.
  destruct pr; (split_and!; try done); (split; simpl; try done);
    exists []; (split; [done|constructor]).
Qed.

(** *** The invariant *)

Lemma after_call_destroy st dst e :
  after_wiring p st -> after_wiring p (call_ (Destroy dst e) st).
Proof.
  intros [(extra & Hc & Hex) ? ? ? ? ? ?]. split; try done.
  exists (extra ++ [Destroy dst e]). simpl. rewrite Hc. split.
  - by rewrite <- !app_assoc.
  - apply Forall_app. split; [done|]. by repeat constructor.
Qed.

Lemma after_unhandled st e :
  after_wiring p st -> after_wiring p (set_unhandled (unhandled st ++ [e]) st).
Proof. by intros []. Qed.

Lemma after_reject st e :
  after_wiring p st ->
  after_wiring p (continue p (set_awaited (reject e (awaited st)) st)).
Proof.
  intros [? ? ? ? ? ? Hs]. unfold settled_as, continue in *.
  destruct st as [fs fl cs dec dst aw dl lo un c]. simpl in *.
  destruct aw; simpl in *; subst; simpl; split; done.
Qed.

Lemma after_resolve st :
  after_wiring p st ->
  after_wiring p (continue p (set_awaited (resolve tt (awaited st)) st)).
Proof.
  intros [? ? ? ? ? ? Hs]. unfold settled_as, continue in *.
  destruct st as [fs fl cs dec dst aw dl lo un c]. simpl in *.
  destruct aw; simpl in *; subst; simpl; split; done.
Qed.

Lemma after_destination_error st e :
  after_wiring p st -> after_wiring p (emit_destination_error p e st).
Proof.
  intros H. unfold emit_destination_error.
  case_match; [by apply after_reject|by apply after_unhandled].
Qed.

Lemma after_destination_finish st :
  after_wiring p st -> after_wiring p (emit_destination_finish p st).
Proof.
  intros H. unfold emit_destination_finish. case_match; [by apply after_resolve|done].
Qed.

Lemma after_set_destination st e :
  after_wiring p st -> after_wiring p (set_destination (Destroyed e) st).
Proof. by intros []. Qed.

Lemma after_set_decompress st e :
  after_wiring p st -> after_wiring p (set_decompress (Destroyed e) st).
Proof. by intros []. Qed.

(** The handlers of [destination] leave the two stages as they are. *)
Lemma destination_error_stages st e :
  decompress (emit_destination_error p e st) = decompress st /\
  destination (emit_destination_error p e st) = destination st.
Proof.
  unfold emit_destination_error, continue. destruct st as [fs fl cs dec dst aw dl lo un c].
  repeat case_match; simpl in *; done.
Qed.

Lemma destination_finish_stages st :
  decompress (emit_destination_finish p st) = decompress st /\
  destination (emit_destination_finish p st) = destination st.
Proof.
  unfold emit_destination_finish, continue. destruct st as [fs fl cs dec dst aw dl lo un c].
  repeat case_match; simpl in *; done.
Qed.

Lemma destroy_destination_stages st e :
  decompress (destroy_destination p e st) = decompress st /\
  destination (destroy_destination p e st) =
    match destination st with Live => Destroyed e | s => s end.
Proof.
  unfold destroy_destination. cbv zeta.
  change (destination (call_ (Destroy Destination e) st)) with (destination st).
  destruct (destination st) eqn:E; simpl; try done.
  by rewrite (proj1 (destination_error_stages _ _)), (proj2 (destination_error_stages _ _)).
Qed.

Lemma after_destroy_destination st e :
  after_wiring p st -> after_wiring p (destroy_destination p e st).
Proof.
  intros H. unfold destroy_destination. cbv zeta.
  apply (after_call_destroy _ Destination e) in H.
  change (destination (call_ (Destroy Destination e) st)) with (destination st).
  case_match; try done.
  by apply after_destination_error, after_set_destination.
Qed.

Lemma after_decompress_error st e :
  after_wiring p st ->
  after_wiring p (emit_decompress_error p e st) /\
  decompress (emit_decompress_error p e st) = decompress st /\
  destination (emit_decompress_error p e st) =
    match destination st with Live => Destroyed e | s => s end.
Proof.
  intros H. unfold emit_decompress_error.
  rewrite (after_registered st) by (done || unfold wiring_calls; set_solver).
  split; [by apply after_destroy_destination|apply destroy_destination_stages].
Qed.

Lemma after_destroy_decompress st e :
  after_wiring p st ->
  after_wiring p (destroy_decompress p e st) /\
  decompress (destroy_decompress p e st) =
    match decompress st with Live => Destroyed e | s => s end /\
  destination (destroy_decompress p e st) =
    match decompress st with
    | Live => match destination st with Live => Destroyed e | s => s end
    | _ => destination st
    end.
Proof.
  intros H. unfold destroy_decompress. cbv zeta.
  apply (after_call_destroy _ Decompress e) in H.
  change (decompress (call_ (Destroy Decompress e) st)) with (decompress st).
  destruct (decompress st) eqn:E; try done.
  apply (after_set_decompress _ e) in H.
  destruct (after_decompress_error _ e H) as (H1 & H2 & H3).
  split_and!; done.
Qed.

Lemma after_response_error st e :
  after_wiring p st ->
  after_wiring p (emit_response_error p e st) /\
  decompress (emit_response_error p e st) =
    match decompress st with Live => Destroyed e | s => s end /\
  destination (emit_response_error p e st) =
    match decompress st with
    | Live => match destination st with Live => Destroyed e | s => s end
    | _ => destination st
    end.
Proof.
  intros H. unfold emit_response_error.
  rewrite (after_registered st) by (done || unfold wiring_calls; set_solver).
  by apply after_destroy_decompress.
Qed.

Lemma after_response_data st chunk :
  after_wiring p st ->
  after_wiring p (emit_response_data chunk st) /\
  decompress (emit_response_data chunk st) = decompress st /\
  destination (emit_response_data chunk st) = destination st.
Proof.
  intros H. unfold emit_response_data.
  rewrite (after_registered st) by (done || unfold wiring_calls; set_solver).
  destruct (flowing st) eqn:Ef, (decompress st) eqn:Ed; try done.
  split_and!; [|done..]. by destruct H.
Qed.

Lemma after_mkdir_settled st : after_wiring p st -> mkdir_settled pr p st = st.
Proof.
  intros [_ _ _ _ _ _ Hs]. unfold mkdir_settled, settled_as in *.
  by destruct (awaited st); rewrite Hs.
Qed.

(** Once the pipeline is wired it stays wired, and a destroyed
    [decompress] goes with a destroyed [destination]. *)
Lemma handle_after st ev :
  after_wiring p st /\ chained st ->
  after_wiring p (handle pr p st ev) /\ chained (handle pr p st ev).
Proof.
  intros [H Hch]. unfold chained in *. destruct ev as [|chunk|e|e|e|]; simpl.
  - by rewrite after_mkdir_settled.
  - destruct (after_response_data st chunk H) as (? & -> & ->). done.
  - destruct (after_response_error st e H) as (? & -> & ->). split; [done|].
    destruct (decompress st) eqn:E1, (destination st) eqn:E2; naive_solver.
  - destruct (after_decompress_error st e H) as (? & -> & ->). split; [done|].
    destruct (decompress st) eqn:E1, (destination st) eqn:E2; naive_solver.
  - split; [by apply after_destination_error|].
    by rewrite (proj1 (destination_error_stages _ _)), (proj2 (destination_error_stages _ _)).
  - split; [by apply after_destination_finish|].
    by rewrite (proj1 (destination_finish_stages _)), (proj2 (destination_finish_stages _)).
Qed.

Lemma handle_before st ev :
  before_wiring p st ->
  before_wiring p (handle pr p st ev) \/
  (after_wiring p (handle pr p st ev) /\ chained (handle pr p st ev)).
Proof.
  intros H. destruct ev as [|chunk|e|e|e|]; simpl.
  - unfold mkdir_settled. destruct (pc st) eqn:Epc; [|left; done..].
    destruct (Fs.mkdir_recursive p (fs st)) as [fs'|e] eqn:Emk.
    + right. apply mkdir_recursive_is_dir in Emk.
      destruct (wire_after st fs' H Emk) as (? & ? & Hd & Hx & ?).
      split; [done|]. unfold chained. by rewrite Hd.
    + left. destruct H. split; try done. right. by exists e.
  - left. unfold emit_response_data. by rewrite (bw_flowing _ _ H).
  - left. unfold emit_response_error. rewrite (before_unregistered st) by done.
    by destruct H.
  - left. unfold emit_decompress_error. rewrite (before_unregistered st) by done.
    by destruct H.
  - left. unfold emit_destination_error. rewrite (before_unregistered st) by done.
    by destruct H.
  - left. unfold emit_destination_finish. by rewrite (before_unregistered st) by done.
Qed.

(** Every state of a run is of one of the two kinds. *)
Lemma run_invariant fs0 events :
  before_wiring p (run pr p fs0 events) \/
  (after_wiring p (run pr p fs0 events) /\ chained (run pr p fs0 events)).
Proof.
  unfold run. induction events as [|ev events IH] using rev_ind.
  - left. apply start_before.
  - rewrite fold_left_app. simpl. destruct IH as [IH|IH].
    + by apply handle_before.
    + right. by apply handle_after.
Qed.

Lemma after_wired st : after_wiring p st -> wired st = true.
Proof.
  intros H. unfold wired.
  rewrite !(after_registered st) by (done || unfold wiring_calls; set_solver).
  destruct H as [_ _ Hd Hx _ _ _].
  by rewrite !bool_decide_eq_true_2.
Qed.

Lemma before_not_wired st : before_wiring p st -> wired st = false.
Proof.
  intros H. unfold wired.
  rewrite (before_unregistered st (On Destination "finish")) by done.
  by rewrite andb_false_r.
Qed.

(** In a run, the pipeline is wired exactly in the states that follow the
    completion of [mkdir]. *)
Lemma run_wired fs0 events :
  wired (run pr p fs0 events) = true ->
  after_wiring p (run pr p fs0 events) /\ chained (run pr p fs0 events).
Proof.
  intros Hw. destruct (run_invariant fs0 events) as [H|H]; [|done].
  apply before_not_wired in H. congruence.
Qed.

(** *** The calls of the error listeners *)

Lemma destination_error_calls st e :
  calls (emit_destination_error p e st) = calls st.
Proof.
  unfold emit_destination_error, continue. destruct st as [fs fl cs dec dst aw dl lo un c].
  repeat case_match; simpl in *; done.
Qed.

Lemma destroy_destination_calls st e :
  calls (destroy_destination p e st) = calls st ++ [Destroy Destination e].
Proof.
  unfold destroy_destination. cbv zeta.
  change (destination (call_ (Destroy Destination e) st)) with (destination st).
  case_match; try done. by rewrite destination_error_calls.
Qed.

Lemma decompress_error_calls st e :
  after_wiring p st ->
  calls (emit_decompress_error p e st) = calls st ++ [Destroy Destination e].
Proof.
  intros H. unfold emit_decompress_error.
  rewrite (after_registered st) by (done || unfold wiring_calls; set_solver).
  apply destroy_destination_calls.
Qed.

Lemma response_error_calls st e :
  after_wiring p st ->
  Destroy Decompress e ∈ calls (emit_response_error p e st).
Proof.
  intros H. unfold emit_response_error.
  rewrite (after_registered st) by (done || unfold wiring_calls; set_solver).
  unfold destroy_decompress. cbv zeta.
  change (decompress (call_ (Destroy Decompress e) st)) with (decompress st).
  assert (Hin : Destroy Decompress e ∈ calls (call_ (Destroy Decompress e) st)).
  { simpl. apply elem_of_app. right. by left. }
  case_match; try done.
  rewrite decompress_error_calls
    by by apply after_set_decompress, after_call_destroy.
  apply elem_of_app. by left.
Qed.

(** *** The promise *)

Lemma returned_stable st ev r :
  pc st = Returned r -> pc (handle pr p st ev) = Returned r.
Proof.
  intros Hpc. destruct st as [fs fl cs dec dst aw dl lo un c]. simpl in Hpc. subst c.
  destruct ev; simpl;
    unfold mkdir_settled, emit_response_data, emit_response_error, destroy_decompress,
      emit_decompress_error, destroy_destination, emit_destination_error,
      emit_destination_finish, continue; simpl;
    repeat (case_match; simpl in *; try done); done.
Qed.

Lemma outcome_stable st events :
  outcome st <> Pending ->
  outcome (fold_left (handle pr p) events st) = outcome st.
Proof.
  revert st. induction events as [|ev events IH]; intros st Hst; simpl; [done|].
  assert (Hpc : exists r, pc st = Returned r).
  { unfold outcome in Hst. destruct (pc st); try done. by eexists. }
  destruct Hpc as [r Hpc].
  assert (Hpc' := returned_stable st ev r Hpc).
  rewrite IH; unfold outcome in *; rewrite Hpc'; by rewrite Hpc in *.
Qed.

Lemma ready_destination_error st e :
  after_wiring p st -> awaited st = Pending ->
  outcome (emit_destination_error p e st) = Rejected e.
Proof.
  intros H Haw. unfold emit_destination_error.
  rewrite (after_registered st) by (done || unfold wiring_calls; set_solver).
  destruct H as [_ _ _ _ _ _ Hs]. unfold settled_as in Hs. rewrite Haw in Hs.
  unfold continue, outcome. destruct st as [fs fl cs dec dst aw dl lo un c].
  simpl in *. by subst.
Qed.

Lemma ready_destination_finish st :
  after_wiring p st -> awaited st = Pending ->
  outcome (emit_destination_finish p st) = Resolved p.
Proof.
  intros H Haw. unfold emit_destination_finish.
  rewrite (after_registered st) by (done || unfold wiring_calls; set_solver).
  destruct H as [_ _ _ _ _ _ Hs]. unfold settled_as in Hs. rewrite Haw in Hs.
  unfold continue, outcome. destruct st as [fs fl cs dec dst aw dl lo un c].
  simpl in *. by subst.
Qed.

Lemma ready_decompress_error st e :
  after_wiring p st -> awaited st = Pending -> destination st = Live ->
  outcome (emit_decompress_error p e st) = Rejected e.
Proof.
  intros H Haw Hdst. unfold emit_decompress_error.
  rewrite (after_registered st) by (done || unfold wiring_calls; set_solver).
  unfold destroy_destination. cbv zeta.
  change (destination (call_ (Destroy Destination e) st)) with (destination st).
  rewrite Hdst. apply ready_destination_error; [|done].
  by apply after_set_destination, after_call_destroy.
Qed.

Lemma ready_response_error st e :
  ready p st -> outcome (emit_response_error p e st) = Rejected e.
Proof.
  intros (H & Haw & Hdec & Hdst). unfold emit_response_error.
  rewrite (after_registered st) by (done || unfold wiring_calls; set_solver).
  unfold destroy_decompress. cbv zeta.
  change (decompress (call_ (Destroy Decompress e) st)) with (decompress st).
  rewrite Hdec. apply ready_decompress_error; [|done..].
  by apply after_set_decompress, after_call_destroy.
Qed.

(** The first event that can settle the promise does, as [verdict] says. *)
Lemma ready_settles st ev :
  ready p st -> settles ev = true -> outcome (handle pr p st ev) = verdict p ev.
Proof.
  intros Hr Hev. pose proof Hr as (H & Haw & Hdec & Hdst).
  destruct ev as [|chunk|e|e|e|]; simpl in *; try done.
  - by apply ready_response_error.
  - by apply ready_decompress_error.
  - by apply ready_destination_error.
  - by apply ready_destination_finish.
Qed.

Lemma ready_waits st ev :
  ready p st -> settles ev = false -> ready p (handle pr p st ev).
Proof.
  intros (H & Haw & Hdec & Hdst) Hev. destruct ev as [|chunk|e|e|e|]; simpl in *; try done.
  - by rewrite after_mkdir_settled.
  - destruct (after_response_data st chunk H) as (? & ? & ?).
    split_and!; try congruence.
    unfold emit_response_data. by repeat case_match.
Qed.

Lemma ready_pending st : ready p st -> outcome st = Pending.
Proof.
  intros ([_ _ _ _ _ _ Hs] & Haw & _). unfold settled_as, outcome in *.
  rewrite Haw in Hs. by rewrite Hs.
Qed.

Lemma ready_fold st events :
  ready p st -> Forall (fun ev => settles ev = false) events ->
  ready p (fold_left (handle pr p) events st).
Proof.
  revert st. induction events as [|ev events IH]; intros st Hr Hall; simpl; [done|].
  apply Forall_cons in Hall as [Hev Hall]. apply IH; [|done]. by apply ready_waits.
Qed.

Lemma mkdir_ready fs0 fs1 :
  Fs.mkdir_recursive p fs0 = Ok fs1 -> ready p (handle pr p (start p fs0) MkdirSettled).
Proof.
  intros Hmk. simpl. unfold mkdir_settled.
  change (pc (start p fs0)) with AwaitMkdir.
  change (fs (start p fs0)) with fs0. rewrite Hmk.
  destruct (wire_after (start p fs0) fs1 (start_before fs0)
              (mkdir_recursive_is_dir _ _ _ Hmk)) as (? & ? & ? & ? & ?).
  by split_and!.
Qed.

(** The promise of the second [await] is resolved by [finish] only. *)
Lemma handle_resolved st ev :
  awaited (handle pr p st ev) = Resolved tt ->
  awaited st = Resolved tt \/ ev = DestinationFinish.
Proof.
  destruct st as [fs fl cs dec dst aw dl lo un c].
  destruct ev; [..|by right]; left; revert H; simpl;
    unfold mkdir_settled, wire, pipe, emit_response_data, emit_response_error,
      destroy_decompress, emit_decompress_error, destroy_destination,
      emit_destination_error, continue; simpl;
    repeat (case_match; simpl in *; try done);
    destruct aw; simpl in *; try done;
    by repeat match goal with x : unit |- _ => destruct x end.
Qed.

Lemma run_resolved fs0 events :
  awaited (run pr p fs0 events) = Resolved tt -> In DestinationFinish events.
Proof.
  unfold run. induction events as [|ev events IH] using rev_ind; [done|].
  rewrite fold_left_app. simpl. intros [H| ->]%handle_resolved; apply in_app_iff.
  - left. by apply IH.
  - right. by left.
Qed.

Lemma run_resolved_path fs0 events q :
  extractTar pr p fs0 events = Resolved q ->
  q = p /\ In DestinationFinish events.
Proof.
  unfold extractTar. intros Hout.
  destruct (run_invariant fs0 events) as [H|[H _]].
  - destruct H as [_ _ _ _ _ _ _ [Hpc|[e Hpc]]]; unfold outcome in Hout;
      rewrite Hpc in Hout; done.
  - pose proof (aw_settled _ _ H) as Hs. unfold settled_as, outcome in *.
    destruct (awaited (run pr p fs0 events)) as [|[]|e] eqn:Haw;
      rewrite Hs in Hout; try done.
    injection Hout as Hq. subst q.
    split; [done|]. by apply (run_resolved fs0).
Qed.

End extractTar_facts.

(** C3. In a run of [extractTar], once the pipeline is wired, an [error] of
    [response] makes the listener call [decompress.destroy] with that error,
    and an [error] of [decompress] makes the listener call
    [destination.destroy] with that error: a live stage is destroyed with the
    error it is passed, so that after an error of [response] neither stage is
    left live, and after an error of [decompress] the tar stage is not. *)
Theorem extractTar_error_chain (pipe_resumes : bool) (p : path) (fs0 : files)
    (events : list Tar.event) (e : error) :
  let st := Tar.run pipe_resumes p fs0 events in
  let st1 := Tar.handle pipe_resumes p st (Tar.ResponseError e) in
  let st2 := Tar.handle pipe_resumes p st (Tar.DecompressError e) in
  Tar.wired st = true ->
  (Tar.Destroy Tar.Decompress e ∈ Tar.calls st1 /\
   (Tar.decompress st = Tar.Live -> Tar.decompress st1 = Tar.Destroyed e) /\
   (Tar.decompress st = Tar.Live -> Tar.destination st = Tar.Live ->
    Tar.destination st1 = Tar.Destroyed e)) /\
  (Tar.Destroy Tar.Destination e ∈ Tar.calls st2 /\
   (Tar.destination st = Tar.Live -> Tar.destination st2 = Tar.Destroyed e)) /\
  Tar.decompress st1 <> Tar.Live /\ Tar.destination st1 <> Tar.Live /\
  Tar.destination st2 <> Tar.Live.
Proof.
  intros st st1 st2 Hw. destruct (run_wired _ _ _ _ Hw) as [H Hch]. fold st in H, Hch.
  unfold Tar.chained in Hch. subst st1 st2. simpl.
  destruct (after_response_error p st e H) as (_ & -> & ->).
  destruct (after_decompress_error p st e H) as (_ & _ & ->).
  pose proof (aw_decompress := Tar.aw_decompress _ _ H).
  pose proof (aw_destination := Tar.aw_destination _ _ H).
  split_and!.
  - by apply response_error_calls.
  - by intros ->.
  - by intros -> ->.
  - rewrite decompress_error_calls by done. apply elem_of_app. right. by left.
  - by intros ->.
  - by destruct (Tar.decompress st).
  - destruct (Tar.decompress st) eqn:E1, (Tar.destination st) eqn:E2; naive_solver.
  - by destruct (Tar.destination st).
Qed.

Lemma extractTar_error_chain_witness :
  let st := Tar.run true ["opt"; "coder"] ∅ [Tar.MkdirSettled; Tar.ResponseData "x"] in
  Tar.decompress (Tar.handle true ["opt"; "coder"] st (Tar.ResponseError (Error "reset"))) =
    Tar.Destroyed (Error "reset") /\
  Tar.destination (Tar.handle true ["opt"; "coder"] st (Tar.ResponseError (Error "reset"))) =
    Tar.Destroyed (Error "reset") /\
  Tar.destination (Tar.handle true ["opt"; "coder"] st (Tar.DecompressError (Error "crc"))) =
    Tar.Destroyed (Error "crc").
Proof.
  intros st.
  pose proof (extractTar_error_chain true ["opt"; "coder"] ∅
                [Tar.MkdirSettled; Tar.ResponseData "x"] (Error "reset") eq_refl)
    as ((_ & H1 & H2) & _).
  pose proof (extractTar_error_chain true ["opt"; "coder"] ∅
                [Tar.MkdirSettled; Tar.ResponseData "x"] (Error "crc") eq_refl)
    as (_ & (_ & H3) & _).
  split_and!; [apply H1|apply H2|apply H3]; reflexivity.
Defined.

(** C6. When [mkdir] has succeeded, the promise of [extractTar] is pending
    until the first event other than data, and that event settles it: it
    resolves, with the path it was given, exactly when the event is [finish]
    of the tar stage, and it rejects with the error when the event is an
    [error] of the tar stage, or an [error] of [decompress] or of [response],
    which reaches the tar stage.  In no run does the promise resolve without
    a [finish] of the tar stage, or with another path. *)
Theorem extractTar_completion (pipe_resumes : bool) (p : path) (fs0 fs1 : files)
    (pre : list Tar.event) (ev : Tar.event) (rest : list Tar.event) :
  Fs.mkdir_recursive p fs0 = Ok fs1 ->
  Forall (fun ev => Tar.settles ev = false) pre ->
  Tar.settles ev = true ->
  Tar.extractTar pipe_resumes p fs0 (Tar.MkdirSettled :: pre) = Pending /\
  Tar.extractTar pipe_resumes p fs0 (Tar.MkdirSettled :: pre ++ ev :: rest) = Tar.verdict p ev /\
  (Tar.extractTar pipe_resumes p fs0 (Tar.MkdirSettled :: pre ++ ev :: rest) = Resolved p <->
   ev = Tar.DestinationFinish) /\
  (forall e, ev = Tar.DestinationError e \/ ev = Tar.DecompressError e \/ ev = Tar.ResponseError e ->
     Tar.extractTar pipe_resumes p fs0 (Tar.MkdirSettled :: pre ++ ev :: rest) = Rejected e) /\
  (forall events q, Tar.extractTar pipe_resumes p fs0 events = Resolved q ->
     q = p /\ In Tar.DestinationFinish events).
Proof.
  intros Hmk Hpre Hev.
  pose proof (ready_fold pipe_resumes p _ pre (mkdir_ready pipe_resumes p fs0 fs1 Hmk) Hpre) as Hr.
  assert (Hout : Tar.extractTar pipe_resumes p fs0 (Tar.MkdirSettled :: pre ++ ev :: rest) =
                 Tar.verdict p ev).
  { assert (Hrun : Tar.run pipe_resumes p fs0 (Tar.MkdirSettled :: pre ++ ev :: rest) =
                   fold_left (Tar.handle pipe_resumes p) rest
                     (Tar.handle pipe_resumes p
                        (fold_left (Tar.handle pipe_resumes p) pre
                           (Tar.handle pipe_resumes p (Tar.start p fs0) Tar.MkdirSettled)) ev)).
    { unfold Tar.run. by rewrite app_comm_cons, fold_left_app. }
    unfold Tar.extractTar. rewrite Hrun.
    rewrite outcome_stable; rewrite (ready_settles pipe_resumes p _ ev Hr Hev); [done|].
    by destruct ev. }
  split_and!.
  - by apply (ready_pending p).
  - done.
  - rewrite Hout. destruct ev; simpl; split; try done.
  - rewrite Hout. intros e [->|[->| ->]]; done.
  - apply run_resolved_path.
Qed.

Lemma extractTar_completion_witness :
  Tar.extractTar false ["opt"; "coder"] ∅
    [Tar.MkdirSettled; Tar.ResponseData "x"; Tar.ResponseData "y"; Tar.DestinationFinish;
     Tar.DestinationError (Error "late")] = Resolved ["opt"; "coder"] /\
  Tar.extractTar false ["opt"; "coder"] ∅
    [Tar.MkdirSettled; Tar.ResponseData "x"; Tar.ResponseError (Error "reset");
     Tar.DestinationFinish] = Rejected (Error "reset").
Proof.
  assert (Hmk : Fs.mkdir_recursive ["opt"; "coder"] ∅ =
                Ok (<[ ["opt"] := Dir ]> (<[ ["opt"; "coder"] := Dir ]> ∅)))
    by reflexivity.
  assert (Hdata : forall chunks : list string,
             Forall (fun ev => Tar.settles ev = false) (Tar.ResponseData <$> chunks)).
  { intros chunks. induction chunks; by constructor. }
  split.
  - apply (proj1 (proj2 (extractTar_completion false ["opt"; "coder"] ∅ _
             (Tar.ResponseData <$> ["x"; "y"]) Tar.DestinationFinish
             [Tar.DestinationError (Error "late")] Hmk (Hdata _) eq_refl))).
  - apply (proj1 (proj2 (extractTar_completion false ["opt"; "coder"] ∅ _
             (Tar.ResponseData <$> ["x"]) (Tar.ResponseError (Error "reset"))
             [Tar.DestinationFinish] Hmk (Hdata _) eq_refl))).
Defined.

(** C7. [extractTar] pauses the stream first and calls [mkdir].  In every
    state of a run, either only these two calls have been made, the stream
    is paused and no chunk has been delivered; or the directory exists and
    the calls are those of the body in the order of the source, with
    [resume] after both pipes and all listeners are in place, followed by
    [destroy] calls only.  So the stream flows, and chunks are delivered,
    only when the directory exists and the pipeline is wired, and no chunk
    is emitted while nothing is piped. *)
Theorem extractTar_paused_until_wired (pipe_resumes : bool) (p : path) (fs0 : files)
    (events : list Tar.event) :
  let st := Tar.run pipe_resumes p fs0 events in
  (Tar.calls (Tar.start p fs0) = [Tar.Pause; Tar.Mkdir p] /\
   Tar.flowing (Tar.start p fs0) = false) /\
  ((Tar.calls st = [Tar.Pause; Tar.Mkdir p] /\ Tar.flowing st = false /\
    Tar.delivered st = []) \/
   ((exists extra,
       Tar.calls st =
         [Tar.Pause; Tar.Mkdir p] ++ Tar.wiring_calls p ++ Tar.Resume :: extra /\
       Forall Tar.is_destroy extra) /\
    Fs.is_dir (Tar.fs st) p = true /\ Tar.wired st = true)) /\
  (Tar.flowing st = true -> Fs.is_dir (Tar.fs st) p = true /\ Tar.wired st = true) /\
  (Tar.delivered st <> [] -> Fs.is_dir (Tar.fs st) p = true /\ Tar.wired st = true) /\
  Tar.lost st = [].
Proof.
  intros st. split; [done|].
  destruct (run_invariant pipe_resumes p fs0 events) as [H|[H _]]; fold st in H.
  - destruct H as [Hc Hf _ _ _ Hd Hl _]. split_and!; [left; done| | |done].
    + by rewrite Hf.
    + by rewrite Hd.
  - pose proof (after_wired p st H) as Hw. destruct H as [Hc _ _ _ Hl Hdir _].
    split_and!; [right|..]; done.
Qed.

Lemma extractTar_paused_until_wired_witness :
  let st := Tar.run true ["opt"; "coder"] ∅
              [Tar.ResponseData "early"; Tar.MkdirSettled; Tar.ResponseData "x"] in
  Tar.delivered st = ["x"] /\
  Fs.is_dir (Tar.fs st) ["opt"; "coder"] = true /\ Tar.wired st = true.
Proof.
  intros st. split; [reflexivity|].
  apply (extractTar_paused_until_wired true ["opt"; "coder"] ∅
           [Tar.ResponseData "early"; Tar.MkdirSettled; Tar.ResponseData "x"]).
  discriminate.
Defined.

(** ** [extractZip] *)

Example extractZip_success :
  let r := Zip.extractZip
             (Zip.sample_env [Zip.ResponseData "PK"; Zip.ResponseData "34"; Zip.WriteFinish] true)
             ["opt"] (Zip.World ∅ []) in
  r.2 = Resolved ["opt"] /\
  Zip.fs r.1 !! ["opt"; "bin"; "coder"] = Some (File "PK34") /\
  Zip.fs r.1 !! ["tmp"; "coder"; "zip-staging"] = None /\
  Zip.fs r.1 !! ["tmp"; "coder"; "zip-staging"; "tmp-abc123"] = None.
Proof. vm_compute. done. Qed.

Example extractZip_download_fails :
  let r := Zip.extractZip
             (Zip.sample_env [Zip.ResponseData "PK"; Zip.ResponseError (Error "reset")] true)
             ["opt"] (Zip.World ∅ []) in
  r.2 = Rejected (Error "reset") /\
  (Zip.Clean "zip-staging" ∉ Zip.calls r.1) /\
  Zip.fs r.1 !! ["tmp"; "coder"; "zip-staging"; "tmp-abc123"] = Some Dir /\
  Zip.fs r.1 !! ["tmp"; "coder"; "zip-staging"; "tmp-abc123"; "archive.zip"] = Some (File "").
Proof.
  vm_compute. split_and!; try done.
  intros H. repeat (apply elem_of_cons in H as [H|H]; [done|]). by apply elem_of_nil in H.
Qed.

Section extractZip_facts.
Import Zip.

Lemma store_keeps (zipPath q : path) (data : string) w :
  is_Some (fs w !! q) -> is_Some (fs (store zipPath data w).1 !! q).
Proof.
  intros Hq. simpl. destruct (decide (zipPath = q)) as [->|Hne].
  - rewrite lookup_insert_eq. by eexists.
  - by rewrite lookup_insert_ne.
Qed.

(** The download removes nothing. *)
Lemma write_settled_keeps (zipPath q : path) file queue events w w' r :
  write_settled zipPath file queue events w = (w', r) ->
  is_Some (fs w !! q) -> is_Some (fs w' !! q).
Proof.
  revert file queue w. induction events as [|ev events IH]; intros file queue w; simpl.
  - by intros [= <- <-].
  - destruct ev as [d|e| | |e|].
    + apply IH.
    + intros [= <- <-] Hq. by apply (store_keeps zipPath q).
    + destruct file; [apply IH|]. intros Hw Hq. apply (IH _ _ _ Hw).
      by apply (store_keeps zipPath q).
    + destruct queue as [|d queue]; [apply IH|]. intros Hw Hq. apply (IH _ _ _ Hw).
      by apply (store_keeps zipPath q).
    + by intros [= <- <-].
    + intros [= <- <-] Hq. by apply (store_keeps zipPath q).
Qed.

Lemma extract_entries_keeps (dir q : path) (entries : list (path * node)) (fs : files) :
  is_Some (fs !! q) -> is_Some (extract_entries dir entries fs !! q).
Proof.
  intros Hq. induction entries as [|[rel n] entries IH]; simpl; [done|].
  destruct (decide (dir ++ rel = q)) as [->|Hne].
  - rewrite lookup_insert_eq. by eexists.
  - by rewrite lookup_insert_ne.
Qed.

(** [tmpdir] returns a directory it has created. *)
Lemma tmpdir_created (h : Fs.host) (suffix name : string) (fs fs' : files) (temp : path) :
  Fs.tmpdir h suffix name fs = Ok (temp, fs') -> fs' !! temp = Some Dir.
Proof.
  unfold Fs.tmpdir, Fs.mkdtemp. repeat case_match; try done.
  intros [= <- <-]. by rewrite lookup_insert_eq.
Qed.

Lemma clean_calls E name w w' r :
  clean E name w = (w', r) -> calls w' = calls w ++ [Clean name].
Proof.
  unfold clean, mbind, async_bind, call_, await_fs. simpl.
  destruct (Fs.clean _ _ _); by intros [= <- <-].
Qed.

(** When [extractZip] resolves, it resolves with the path it was given,
    [clean] was its last call and nothing is left of the staging
    directory. *)
Lemma extractZip_resolved_cleaned E (p q : path) w0 w :
  extractZip E p w0 = (w, Resolved q) ->
  q = p /\
  (exists cs, calls w = cs ++ [Clean "zip-staging"]) /\
  (forall x, Fs.below (staging E) x -> fs w !! x = None).
Proof.
  unfold extractZip. unfold mbind at 1 2 3 4 5 6 7 8 9. unfold async_bind.
  repeat (match goal with
          | |- context [match ?m ?w with _ => _ end] =>
              let w' := fresh "w" in let r := fresh "r" in let E' := fresh "E" in
              destruct (m w) as [w' [| |]] eqn:E'; try done
          end).
  intros [= <- <-].
  match goal with H : clean _ _ _ = _ |- _ => pose proof (clean_calls _ _ _ _ _ H) as Hcalls;
    revert H end.
  unfold clean, mbind, async_bind, call_, await_fs. simpl.
  destruct (Fs.clean _ _ _) as [fs'|] eqn:Ecl; [|done]. intros [= <-].
  split_and!; [done|by eexists|]. simpl.
  intros x Hx. unfold Fs.clean in Ecl. apply rmdir_recursive_ok in Ecl. subst fs'.
  rewrite outside_lookup. by rewrite decide_True.
Qed.

End extractZip_facts.

(** C2 does not hold: [extractZip] calls [clean] after [unzip] has resolved
    and nowhere else.  Whenever the staging directory has been created and
    the promise of [extractZip] rejects (the download failed, the extraction
    failed, or [clean] itself did), the staging directory that [tmpdir]
    returned is still there when the promise settles. *)
Theorem extractZip_rejected_keeps_staging (E : Zip.env) (p : path) (w0 w : Zip.world)
    (fs1 fs2 : files) (temp : path) (e : error) :
  Fs.mkdir_recursive p (Zip.fs w0) = Ok fs1 ->
  Fs.tmpdir (Zip.host E) (Zip.suffix E) "zip-staging" fs1 = Ok (temp, fs2) ->
  Zip.extractZip E p w0 = (w, Rejected e) ->
  is_Some (Zip.fs w !! temp).
Proof.
  intros Hmk Htmp. pose proof (tmpdir_created _ _ _ _ _ _ Htmp) as Htemp.
  unfold Zip.extractZip, Zip.mkdir, Zip.tmpdir, Zip.createWriteStream, Zip.unzip, Zip.clean,
    mbind, Zip.async_bind, Zip.call_, Zip.await_fs, Zip.update_fs, mret, Zip.async_ret.
  simpl. rewrite Hmk. simpl. rewrite Htmp. simpl.
  destruct (Zip.write_settled _ _ _ _ _) as [w4 r4] eqn:Ew.
  assert (Hw4 : is_Some (Zip.fs w4 !! temp)).
  { apply (write_settled_keeps _ temp _ _ _ _ _ _ Ew). simpl. by eexists. }
  destruct r4 as [|[]|e4]; [done| |by intros [= <- <-]].
  simpl. destruct (Zip.fs w4 !! path_join temp "archive.zip") as [[|data]|];
    [by intros [= <- <-]| |by intros [= <- <-]].
  destruct (Zip.decode E data) as [entries|e5]; [|by intros [= <- <-]].
  simpl. destruct (Fs.clean _ _ _) as [fs6|e6] eqn:Ecl; [done|].
  intros [= <- <-]. simpl. by apply extract_entries_keeps.
Qed.

Lemma extractZip_rejected_keeps_staging_witness :
  let E := Zip.sample_env [Zip.ResponseData "PK"; Zip.ResponseData "34"; Zip.WriteFinish] false in
  let r := Zip.extractZip E ["opt"; "coder"] (Zip.World ∅ []) in
  r.2 = Rejected (Error "not a zip") /\
  is_Some (Zip.fs r.1 !! ["tmp"; "coder"; "zip-staging"; "tmp-abc123"]).
Proof.
  intros E r.
  assert (Hr : r = (r.1, Rejected (Error "not a zip"))) by reflexivity.
  split; [by rewrite Hr|].
  eapply (extractZip_rejected_keeps_staging E ["opt"; "coder"] (Zip.World ∅ []) r.1
            (<[ ["opt"] := Dir ]> (<[ ["opt"; "coder"] := Dir ]> ∅))).
  - reflexivity.
  - reflexivity.
  - exact Hr.
Defined.

(** ** [split] of a string at a delimiter *)

Section split_facts.
Import Split.

Lemma starts_with_app (d rest : string) : starts_with d (d +:+ rest) = true.
Proof. induction d as [|a d IH]; simpl; [done|]. by rewrite bool_decide_eq_true_2, IH. Qed.

Lemma starts_with_inv (d s : string) :
  starts_with d s = true -> exists rest, s = d +:+ rest.
Proof.
  revert s. induction d as [|a d IH]; intros s; simpl.
  - intros _. by exists s.
  - destruct s as [|b s]; [done|].
    intros [Hab Hd]%andb_true_iff. apply bool_decide_eq_true in Hab as ->.
    destruct (IH s Hd) as [rest ->]. by exists rest.
Qed.

Lemma indexOf_range (s d : string) : (-1 <= String_indexOf s d)%Z.
Proof.
  induction s as [|c s IH]; simpl; repeat case_match; lia.
Qed.

(** Where [indexOf] finds the delimiter, it is there. *)
Lemma indexOf_found (s d : string) :
  String_indexOf s d <> (-1)%Z ->
  exists before after,
    s = before +:+ d +:+ after /\
    String_indexOf s d = Z.of_nat (String.length before).
Proof.
  induction s as [|c s IH]; simpl.
  - destruct (starts_with d "") eqn:E; [|done]. intros _.
    apply starts_with_inv in E as [rest E]. by exists "", rest.
  - destruct (starts_with d (String c s)) eqn:E.
    + intros _. apply starts_with_inv in E as [rest E]. by exists "", rest.
    + case_decide as Hi; [done|]. intros _.
      destruct (IH Hi) as (before & after & -> & Hlen).
      exists (String c before), after. split; [done|]. simpl String.length. lia.
Qed.

(** Where it does not, the delimiter does not occur. *)
Lemma indexOf_absent (s d before after : string) :
  String_indexOf s d = (-1)%Z -> s <> before +:+ d +:+ after.
Proof.
  revert before. induction s as [|c s IH]; intros before; simpl.
  - destruct (starts_with d "") eqn:E; [done|]. intros _ Hs.
    destruct before; [|done]. simpl in Hs. by rewrite Hs, starts_with_app in E.
  - destruct (starts_with d (String c s)) eqn:E; [done|].
    case_decide as Hi; [|pose proof (indexOf_range s d); lia].
    intros _ Hs. destruct before as [|b before].
    + simpl in Hs. by rewrite Hs, starts_with_app in E.
    + simpl in Hs. injection Hs as _ Hs. by apply (IH before).
Qed.

Lemma indexOf_char (before after : string) (c : ascii) :
  occurs c before = false ->
  String_indexOf (before +:+ String c after) (String c "") =
  Z.of_nat (String.length before).
Proof.
  induction before as [|b before IH]; simpl.
  - intros _. by rewrite bool_decide_eq_true_2.
  - intros [Hb Hbefore]%orb_false_iff. apply bool_decide_eq_false in Hb.
    rewrite bool_decide_eq_false_2 by congruence. simpl. rewrite IH by done.
    case_decide; lia.
Qed.

Lemma clamp_nat (len n : nat) : n <= len -> clamp len (Z.of_nat n) = n.
Proof. unfold clamp. lia. Qed.

Lemma string_length_app (a b : string) :
  String.length (a +:+ b) = String.length a + String.length b.
Proof. induction a; simpl; congruence. Qed.

Lemma substring_all (s : string) : String.substring 0 (String.length s) s = s.
Proof. induction s; simpl; congruence. Qed.

Lemma substring_head (a b : string) :
  String.substring 0 (String.length a) (a +:+ b) = a.
Proof. induction a as [|c a IH]; simpl; [by destruct b|]. by rewrite IH. Qed.

Lemma substring_tail (a b : string) :
  String.substring (String.length a) (String.length b) (a +:+ b) = b.
Proof. induction a as [|c a IH]; simpl; [apply substring_all|done]. Qed.

(** [s.substring(0, i)] at the length of a prefix is the prefix. *)
Lemma String_substring_head (a b : string) :
  String_substring (a +:+ b) 0 (Some (Z.of_nat (String.length a))) = a.
Proof.
  unfold String_substring. rewrite string_length_app, clamp_nat by lia.
  replace (clamp _ 0) with 0 by (unfold clamp; lia).
  rewrite Nat.min_0_l, Nat.max_0_l, Nat.sub_0_r.
  apply substring_head.
Qed.

(** [s.substring(i + 1)] at the length of a prefix is what follows the next
    character. *)
Lemma String_substring_tail (a : string) (c : ascii) (b : string) :
  String_substring (a +:+ String c b) (Z.of_nat (String.length a) + 1) None = b.
Proof.
  unfold String_substring. rewrite string_length_app. simpl String.length.
  replace (Z.of_nat (String.length a) + 1)%Z with (Z.of_nat (String.length a + 1)) by lia.
  rewrite clamp_nat by lia.
  rewrite Nat.min_l, Nat.max_r by lia.
  replace (String.length a + S (String.length b) - (String.length a + 1))
    with (String.length b) by lia.
  change (a +:+ String c b) with (a +:+ String c "" +:+ b).
  rewrite <- app_assoc'.
  replace (String.length a + 1) with (String.length (a +:+ String c "")).
  - apply substring_tail.
  - rewrite string_length_app. simpl. lia.
Qed.

Lemma String_substring_past (s : string) :
  String_substring s (Z.of_nat (String.length s) + 1) None = "".
Proof.
  unfold String_substring, clamp.
  replace (Z.to_nat _) with (String.length s) by lia.
  rewrite Nat.min_id, Nat.max_id, Nat.sub_diag.
  induction s; simpl; [done|]. by destruct s.
Qed.

Lemma trim_end_white (s : string) : white_end (trim_end s) = false.
Proof.
  induction s as [|c s IH]; simpl; [done|].
  destruct (trim_end s) as [|c' t] eqn:E.
  - by destruct (is_white c) eqn:Ec; simpl.
  - simpl in *. done.
Qed.

Lemma trim_start_white (s : string) : white_start (trim_start s) = false.
Proof.
  induction s as [|c s IH]; simpl; [done|].
  by destruct (is_white c) eqn:Ec; simpl.
Qed.

Lemma trim_end_start (s : string) :
  white_start s = false -> white_start (trim_end s) = false.
Proof.
  destruct s as [|c s]; simpl; [done|]. intros Hc.
  destruct (trim_end s); simpl; by rewrite ?Hc.
Qed.

Lemma indexOf_starts (s d : string) : starts_with d s = true -> String_indexOf s d = 0%Z.
Proof. destruct s; simpl; by intros ->. Qed.

(** [indexOf] finds the first occurrence. *)
Lemma indexOf_first (b d a : string) :
  String_indexOf (b +:+ d +:+ a) d <> (-1)%Z /\
  (String_indexOf (b +:+ d +:+ a) d <= Z.of_nat (String.length b))%Z.
Proof.
  induction b as [|x b IH].
  - simpl String.append. rewrite indexOf_starts by apply starts_with_app. simpl. lia.
  - simpl String.append. simpl String_indexOf.
    destruct (starts_with d _); [simpl; lia|].
    destruct IH as [IH1 IH2]. rewrite decide_False by done.
    pose proof (indexOf_range (b +:+ d +:+ a) d). simpl String.length. lia.
Qed.

Lemma split_found (str d before after : string) :
  str = before +:+ d +:+ after ->
  String_indexOf str d = Z.of_nat (String.length before) ->
  split str d =
  (String_trim before,
   match d with EmptyString => String_substring after 1 None | String _ d' => d' +:+ after end).
Proof.
  intros -> Hi. unfold split. rewrite Hi.
  rewrite decide_True by lia. rewrite String_substring_head. f_equal.
  destruct d as [|c d'].
  - destruct before; [done|]. exfalso. revert Hi. simpl String.append.
    simpl. lia.
  - apply String_substring_tail.
Qed.

End split_facts.

(** X1. [split] at a delimiter of one character cuts the string at the first
    occurrence of the character: the first item is what comes before it,
    trimmed, and the second item is all that follows it, as it is. *)
Theorem split_at_char (before after : string) (c : ascii) :
  occurs c before = false ->
  Split.split (before +:+ String c after) (String c "") = (Split.String_trim before, after).
Proof.
  intros Hc.
  apply (split_found _ (String c "") before after); [done|]. by apply indexOf_char.
Qed.

Lemma split_at_char_witness :
  Split.split "name = a = b" "=" = ("name", " a = b").
Proof. apply (split_at_char "name " " a = b" "="%char). reflexivity. Defined.

(** X2. When the delimiter does not occur in the string, [split] returns the
    whole string, not trimmed, and the empty string. *)
Theorem split_absent (str delimiter : string) :
  (forall before after, str <> before +:+ delimiter +:+ after) ->
  Split.split str delimiter = (str, "").
Proof.
  intros Hno. unfold Split.split.
  destruct (decide (Split.String_indexOf str delimiter = (-1)%Z)) as [->|Hi]; [done|].
  destruct (indexOf_found _ _ Hi) as (before & after & Hs & _). by destruct (Hno before after).
Qed.

Lemma split_absent_witness : Split.split " ab " ":" = (" ab ", "").
Proof.
  apply (split_absent " ab " ":"). intros before after.
  apply indexOf_absent. reflexivity.
Defined.

(** X3. Of a delimiter of several characters [split] drops the first
    character only: when the delimiter occurs, the second item is the rest
    of the delimiter followed by what follows its first occurrence. *)
Theorem split_keeps_delimiter_tail (str : string) (c : ascii) (d' b0 a0 : string) :
  str = b0 +:+ String c d' +:+ a0 ->
  exists before after,
    str = before +:+ String c d' +:+ after /\
    String.length before <= String.length b0 /\
    Split.split str (String c d') = (Split.String_trim before, d' +:+ after).
Proof.
  intros Hs. destruct (indexOf_first b0 (String c d') a0) as [Hi Hle]. rewrite <- Hs in *.
  destruct (indexOf_found _ _ Hi) as (before & after & Hs' & Hlen).
  exists before, after. split_and!; [done|lia|].
  by apply (split_found str (String c d') before after).
Qed.

Lemma split_keeps_delimiter_tail_witness :
  exists before after,
    "a -> b -> c" = before +:+ "->" +:+ after /\
    String.length before <= 7 /\
    Split.split "a -> b -> c" "->" = (Split.String_trim before, ">" +:+ after).
Proof.
  apply (split_keeps_delimiter_tail "a -> b -> c" "-"%char ">" "a -> b " " c"). reflexivity.
Defined.

(** X4. With the empty delimiter, [split] returns the empty string and the
    string without its first character. *)
Theorem split_empty_delimiter (str : string) :
  Split.split str "" =
  ("", match str with EmptyString => EmptyString | String _ rest => rest end).
Proof.
  destruct str as [|c rest]; [done|].
  rewrite (split_found (String c rest) "" "" (String c rest)) by done.
  f_equal. apply (String_substring_tail "" c rest).
Qed.

(** X5. When the delimiter occurs, the first item of [split] neither starts
    nor ends with white space. *)
Theorem split_first_trimmed (str delimiter before after : string) :
  str = before +:+ delimiter +:+ after ->
  Split.white_start (Split.split str delimiter).1 = false /\
  Split.white_end (Split.split str delimiter).1 = false.
Proof.
  intros Hs. destruct (indexOf_first before delimiter after) as [Hi _]. rewrite <- Hs in Hi.
  unfold Split.split. rewrite decide_True by done. simpl. unfold Split.String_trim. split.
  - apply trim_end_start, trim_start_white.
  - apply trim_end_white.
Qed.

Lemma split_first_trimmed_witness :
  Split.white_start (Split.split "  key  : value " ":").1 = false /\
  Split.white_end (Split.split "  key  : value " ":").1 = false.
Proof. apply (split_first_trimmed "  key  : value " ":" "  key  " " value "). reflexivity. Defined.

(** ** [context] *)

Lemma context_after {C : Type} (calls : list (option C)) :
  Context.after calls = last (omap id calls).
Proof.
  unfold Context.after. induction calls as [|ctx calls IH] using rev_ind; [done|].
  rewrite fold_left_app, omap_app. simpl. rewrite IH.
  destruct ctx as [c|]; simpl.
  - by rewrite last_snoc.
  - rewrite app_nil_r. by destruct (last (omap id calls)).
Qed.

(** X6. After any sequence of calls of [context], a call without argument
    returns the context of the last call that passed one and leaves the
    variable as it is; it throws when no call has passed one. *)
Theorem context_returns_last_set {C : Type} (calls : list (option C)) :
  Context.context None (Context.after calls) =
  (Context.after calls,
   match last (omap id calls) with
   | Some c => Ok c
   | None => Err Context.not_set
   end).
Proof.
  rewrite context_after. by destruct (last (omap id calls)).
Qed.

(** ** [getTarget] and [getAssetUrl] *)

(** Of two strings that end a same string, the shorter ends the longer. *)
Lemma app_suffix (a b s t : string) :
  a +:+ s = b +:+ t -> String.length s <= String.length t ->
  exists u, t = u +:+ s.
Proof.
  revert b. induction a as [|x a IH]; intros b; simpl.
  - intros -> Hlen. rewrite string_length_app in Hlen.
    destruct b; [by exists ""|simpl in Hlen; lia].
  - destruct b as [|y b]; simpl.
    + intros <- _. by exists (String x a).
    + intros [= _ H]. by apply (IH b).
Qed.

Lemma app_inj_r (a b c : string) : a +:+ c = b +:+ c -> a = b.
Proof.
  revert b. induction a as [|x a IH]; intros b; simpl.
  - intros H. destruct b; [done|]. apply (f_equal String.length) in H.
    simpl in H. rewrite string_length_app in H. lia.
  - destruct b as [|y b]; simpl.
    + intros H. apply (f_equal String.length) in H.
      simpl in H. rewrite string_length_app in H. lia.
    + intros [= -> H]. f_equal. by apply IH.
Qed.

Lemma zip_not_targz (a b : string) : a +:+ ".zip" <> b +:+ ".tar.gz".
Proof.
  intros H. apply app_suffix in H as [u Hu]; [|simpl; lia].
  destruct u as [|x1 [|x2 [|x3 [|x4 u]]]]; simplify_eq/=.
  apply (f_equal String.length) in H2. rewrite string_length_app in H2. simpl in H2. lia.
Qed.

(** X7. The URL of [getAssetUrl] names a [.tar.gz] archive exactly on Linux
    and a [.zip] archive on every other platform. *)
Theorem getAssetUrl_extension (proc : Target.process) (version : string) :
  (Target.ends_with ".tar.gz" (Target.getAssetUrl proc version) <->
   Target.platform proc = "linux") /\
  (Target.ends_with ".zip" (Target.getAssetUrl proc version) <->
   Target.platform proc <> "linux").
Proof.
  assert (Hurl : exists pre, Target.getAssetUrl proc version =
            pre +:+ (if decide (Target.platform proc = "linux") then ".tar.gz" else ".zip")).
  { unfold Target.getAssetUrl, Target.assetFilename. case_decide.
    - eexists. by rewrite <- !app_assoc'.
    - eexists. by rewrite <- !app_assoc'. }
  destruct Hurl as [pre Hurl]. rewrite Hurl. unfold Target.ends_with.
  case_decide as Hp.
  - split; split; [done|by exists pre| |done].
    intros [pre' H]. symmetry in H. by apply zip_not_targz in H.
  - split; split; [|done|done|by exists pre].
    intros [pre' H]. by apply zip_not_targz in H.
Qed.

(** X8. For one platform and architecture, [getAssetUrl] gives different
    URLs for different versions. *)
Theorem getAssetUrl_injective (proc : Target.process) (v1 v2 : string) :
  Target.getAssetUrl proc v1 = Target.getAssetUrl proc v2 -> v1 = v2.
Proof.
  unfold Target.getAssetUrl.
  destruct (decide (v1 = "latest")) as [->|H1], (decide (v2 = "latest")) as [->|H2];
    [done|intros H; simplify_eq/=..|].
  intros H. simplify_eq/=.
  by apply (app_inj_r v1 v2 (String "/" (Target.assetFilename proc))).
Qed.

Lemma getAssetUrl_injective_witness :
  Target.getAssetUrl (Target.Process "darwin" "x64") "v1.1.0" =
  "https://github.com/cdr/coder-cli/releases/download/v1.1.0/coder-cli-darwin-amd64.zip" /\
  "v1.1.0" = "v1.1.0".
Proof.
  split; [reflexivity|].
  apply (getAssetUrl_injective (Target.Process "darwin" "x64") "v1.1.0" "v1.1.0"). reflexivity.
Defined.

(** ** [mediaDir] *)

Lemma rev_tail_rev {A} (l : list A) : rev (tail (rev l)) = removelast l.
Proof.
  induction l as [|x l IH] using rev_ind; [done|].
  by rewrite rev_unit, removelast_last; simpl; rewrite rev_involutive.
Qed.

(** X9. [mediaDir] is the directory [media] two levels above [__filename]:
    beside the directory that holds the file. *)
Theorem mediaDir_sibling (__filename : path) :
  mediaDir __filename = removelast (removelast __filename) ++ ["media"].
Proof.
  unfold mediaDir, path_join_all.
  change (normalize (rev __filename) _) with (rev ("media" :: tail (tail (rev __filename)))).
  simpl. f_equal. rewrite <- (rev_involutive (tail (rev __filename))) at 1.
  by rewrite !rev_tail_rev.
Qed.

(** ** [onLine], before the stream ends *)

Section onLine_progress.
Import Lines.

Lemma split_length sep s : length (String_split sep s) = S (count_char sep s).
Proof.
  induction s as [|c s IH]; simpl; [done|].
  case_decide; simpl; [by rewrite IH|].
  destruct (split_cons sep s) as (x & xs & E). rewrite E in *. simpl in *. lia.
Qed.

Lemma feed_app chunks1 chunks2 st :
  feed (chunks1 ++ chunks2) st = feed chunks2 (feed chunks1 st).
Proof. unfold feed. by rewrite map_app, fold_left_app. Qed.

Lemma feed_state chunks :
  calls (feed chunks init) = removelast (String_split LF (content chunks)) /\
  buffer (feed chunks init) = List.last (String_split LF (content chunks)) "".
Proof.
  pose proof (feed_split chunks init eq_refl) as H. simpl in H.
  rewrite (app_removelast_last (l := String_split LF (content chunks)) "") in H
    by apply split_nonempty.
  by apply app_inj_tail in H.
Qed.

Lemma feed_buffer_clean chunks : occurs LF (buffer (feed chunks init)) = false.
Proof. rewrite (proj2 (feed_state chunks)). apply split_last_no_sep. Qed.

Lemma occurs_app_false c (a b : string) :
  occurs c a = false -> occurs c b = false -> occurs c (a +:+ b) = false.
Proof.
  intros Ha Hb. induction a as [|x a IH]; simpl in *; [done|].
  apply orb_false_iff in Ha as [-> Ha]. by rewrite IH.
Qed.

End onLine_progress.

(** X10. Before the stream ends, [onLine] has delivered exactly the lines of
    the received text that a newline has closed, and its buffer holds the
    text after the last newline, which has no newline in it. *)
Theorem onLine_delivers_closed_lines (chunks : list string) :
  let st := Lines.feed chunks Lines.init in
  Lines.calls st = removelast (String_split LF (content chunks)) /\
  Lines.buffer st = List.last (String_split LF (content chunks)) "" /\
  terminated nl (Lines.calls st) +:+ Lines.buffer st = content chunks /\
  occurs LF (Lines.buffer st) = false.
Proof.
  intros st. destruct (feed_state chunks) as [Hc Hb]. fold st in Hc, Hb.
  rewrite Hc, Hb. split_and!; [done..| |].
  - apply split_unterminated.
  - apply split_last_no_sep.
Qed.

(** X11. [onLine] calls the callback once more than there are newlines in
    the stream. *)
Theorem onLine_count (chunks : list string) :
  length (Lines.onLine chunks) = S (count_char LF (content chunks)).
Proof. rewrite onLine_split. apply split_length. Qed.

(** X13. A chunk without a newline makes no call of the callback: it is
    added to the buffer, whatever came before. *)
Theorem onLine_holds_partial_line (chunks : list string) (d : string) :
  occurs LF d = false ->
  Lines.calls (Lines.feed (chunks ++ [d]) Lines.init) =
    Lines.calls (Lines.feed chunks Lines.init) /\
  Lines.buffer (Lines.feed (chunks ++ [d]) Lines.init) =
    Lines.buffer (Lines.feed chunks Lines.init) +:+ d.
Proof.
  intros Hd. rewrite feed_app.
  change (Lines.feed [d] ?st) with (Lines.on_data d st).
  rewrite on_data_split. simpl.
  assert (Hb : occurs LF (Lines.buffer (Lines.feed chunks Lines.init) +:+ d) = false)
    by (apply occurs_app_false; [apply feed_buffer_clean|done]).
  rewrite (split_no_sep _ _ Hb). simpl. by rewrite app_nil_r.
Qed.

Lemma onLine_holds_partial_line_witness :
  Lines.calls (Lines.feed (["a" +:+ nl +:+ "b"] ++ ["c"]) Lines.init) = ["a"] /\
  Lines.buffer (Lines.feed (["a" +:+ nl +:+ "b"] ++ ["c"]) Lines.init) = "bc".
Proof. apply (onLine_holds_partial_line ["a" +:+ nl +:+ "b"] "c"). reflexivity. Defined.

(** ** [extractTar], besides *)

Section extractTar_more.
Import Tar.
Context (pr : bool) (p : path).

(** After [mkdir] has failed, no event changes what [extractTar] did. *)
Lemma failed_stays st ev :
  before_wiring p st -> (exists e, pc st = Returned (Err e)) ->
  before_wiring p (handle pr p st ev).
Proof.
  intros H [e Hpc]. destruct (handle_before pr p st ev H) as [H'|[H' _]]; [done|].
  pose proof (returned_stable pr p st ev _ Hpc) as Hpc'.
  destruct ev as [|chunk|e'|e'|e'|]; simpl in *.
  - unfold mkdir_settled in *. by rewrite Hpc in *.
  - unfold emit_response_data in *. by rewrite (bw_flowing _ _ H) in *.
  - unfold emit_response_error in *. rewrite (before_unregistered p st) in * by done.
    by destruct H.
  - unfold emit_decompress_error in *. rewrite (before_unregistered p st) in * by done.
    by destruct H.
  - unfold emit_destination_error in *. rewrite (before_unregistered p st) in * by done.
    by destruct H.
  - unfold emit_destination_finish in *. by rewrite (before_unregistered p st) in * by done.
Qed.

Lemma failed_fold st events e :
  before_wiring p st -> pc st = Returned (Err e) ->
  before_wiring p (fold_left (handle pr p) events st) /\
  pc (fold_left (handle pr p) events st) = Returned (Err e).
Proof.
  revert st. induction events as [|ev events IH]; intros st H Hpc; simpl; [done|].
  apply IH; [apply failed_stays; eauto|by apply returned_stable].
Qed.

(** A ready pipeline takes the chunks in the order they come. *)
Lemma ready_data st chunks :
  ready p st ->
  ready p (fold_left (handle pr p) (ResponseData <$> chunks) st) /\
  delivered (fold_left (handle pr p) (ResponseData <$> chunks) st) = delivered st ++ chunks.
Proof.
  revert st. induction chunks as [|d chunks IH]; intros st Hr.
  - simpl. by rewrite app_nil_r.
  - assert (Hr' : ready p (emit_response_data d st))
      by by apply (ready_waits pr p st (ResponseData d)).
    change (fold_left (handle pr p) (ResponseData <$> d :: chunks) st) with
      (fold_left (handle pr p) (ResponseData <$> chunks) (emit_response_data d st)).
    destruct (IH _ Hr') as [H1 H2]. split; [done|]. rewrite H2.
    destruct Hr as (Ha & _ & Hdec & _). unfold emit_response_data.
    rewrite (aw_flowing _ _ Ha), Hdec.
    rewrite (after_registered p st)
      by (done || (unfold wiring_calls; apply elem_of_cons; right; apply elem_of_cons; by left)).
    simpl. by rewrite <- app_assoc.
Qed.

(** While [mkdir] is pending the paused stream emits no data. *)
Lemma start_data fs0 chunks :
  fold_left (handle pr p) (ResponseData <$> chunks) (start p fs0) = start p fs0.
Proof. induction chunks as [|d chunks IH]; simpl; [done|]. apply IH. Qed.

End extractTar_more.

(** X14. When [mkdir] fails, [extractTar] rejects with the error of [mkdir]
    and has done nothing else: the stream stays paused, no stage is created,
    nothing is ever delivered, whatever happens afterwards. *)
Theorem extractTar_mkdir_fails (pipe_resumes : bool) (p : path) (fs0 : files) (e : error)
    (events : list Tar.event) :
  Fs.mkdir_recursive p fs0 = Err e ->
  let st := Tar.run pipe_resumes p fs0 (Tar.MkdirSettled :: events) in
  Tar.extractTar pipe_resumes p fs0 (Tar.MkdirSettled :: events) = Rejected e /\
  Tar.calls st = [Tar.Pause; Tar.Mkdir p] /\
  Tar.flowing st = false /\
  Tar.decompress st = Tar.Absent /\ Tar.destination st = Tar.Absent /\
  Tar.delivered st = [].
Proof.
  intros Hmk st.
  assert (Hst : Tar.before_wiring p st /\ Tar.pc st = Tar.Returned (Err e)).
  { assert (Hfirst : Tar.handle pipe_resumes p (Tar.start p fs0) Tar.MkdirSettled =
                     Tar.set_pc (Tar.Returned (Err e)) (Tar.start p fs0)).
    { simpl. unfold Tar.mkdir_settled. simpl. by rewrite Hmk. }
    unfold st, Tar.run.
    change (fold_left ?f (Tar.MkdirSettled :: events) ?s) with
      (fold_left f events (Tar.handle pipe_resumes p s Tar.MkdirSettled)).
    rewrite Hfirst. apply failed_fold; [|done].
    split; try done. right. by exists e. }
  destruct Hst as [[Hc Hf Hd Hx _ Hdl _ _] Hpc].
  split_and!; try done. unfold Tar.extractTar, Tar.outcome. fold st. by rewrite Hpc.
Qed.

Lemma extractTar_mkdir_fails_witness :
  Tar.extractTar true ["opt"; "coder"] {[ ["opt"] := File "" ]}
    [Tar.MkdirSettled; Tar.ResponseData "x"; Tar.DestinationFinish] =
  Rejected (SystemError "ENOTDIR").
Proof.
  apply (extractTar_mkdir_fails true ["opt"; "coder"] {[ ["opt"] := File "" ]}
           (SystemError "ENOTDIR") [Tar.ResponseData "x"; Tar.DestinationFinish]).
  reflexivity.
Defined.

(** X15. When [mkdir] has succeeded, the chunks that [response] emits reach
    [decompress] all, once each and in the order they were emitted; what the
    paused stream holds while [mkdir] is pending is not emitted. *)
Theorem extractTar_delivers_in_order (pipe_resumes : bool) (p : path) (fs0 fs1 : files)
    (early chunks : list string) :
  Fs.mkdir_recursive p fs0 = Ok fs1 ->
  let st := Tar.run pipe_resumes p fs0
              ((Tar.ResponseData <$> early) ++ Tar.MkdirSettled :: (Tar.ResponseData <$> chunks)) in
  Tar.delivered st = chunks /\ Tar.lost st = [] /\
  Tar.extractTar pipe_resumes p fs0
    ((Tar.ResponseData <$> early) ++ Tar.MkdirSettled :: (Tar.ResponseData <$> chunks)) = Pending.
Proof.
  intros Hmk st.
  assert (Hst : st = fold_left (Tar.handle pipe_resumes p) (Tar.ResponseData <$> chunks)
                       (Tar.handle pipe_resumes p (Tar.start p fs0) Tar.MkdirSettled)).
  { unfold st, Tar.run. rewrite fold_left_app. by rewrite start_data. }
  pose proof (mkdir_ready pipe_resumes p fs0 fs1 Hmk) as Hr.
  destruct (ready_data pipe_resumes p _ chunks Hr) as [Hr' Hd]. rewrite <- Hst in Hr', Hd.
  split_and!.
  - rewrite Hd. simpl. unfold Tar.mkdir_settled. simpl. rewrite Hmk.
    by destruct pipe_resumes.
  - by destruct Hr' as [[] _].
  - unfold Tar.extractTar. fold st. by apply (ready_pending p).
Qed.

Lemma extractTar_delivers_in_order_witness :
  Tar.delivered (Tar.run false ["opt"] ∅
    ((Tar.ResponseData <$> ["early"]) ++ Tar.MkdirSettled :: (Tar.ResponseData <$> ["a"; "b"; "c"]))) =
  ["a"; "b"; "c"].
Proof.
  assert (Hmk : Fs.mkdir_recursive ["opt"] ∅ = Ok (<[ ["opt"] := Dir ]> ∅))
    by reflexivity.
  apply (extractTar_delivers_in_order false ["opt"] ∅ _ ["early"] ["a"; "b"; "c"] Hmk).
Defined.

(** X17. Until [mkdir] has completed [extractTar] listens to nothing: an
    [error] that [response] emits in the meantime finds no listener, destroys
    no stage and does not settle the promise. *)
Theorem extractTar_early_error_unhandled (pipe_resumes : bool) (p : path) (fs0 : files)
    (events : list Tar.event) (e : error) :
  let st := Tar.run pipe_resumes p fs0 events in
  let st' := Tar.handle pipe_resumes p st (Tar.ResponseError e) in
  Tar.wired st = false ->
  Tar.unhandled st' = Tar.unhandled st ++ [e] /\
  Tar.calls st' = Tar.calls st /\
  Tar.outcome st' = Tar.outcome st.
Proof.
  intros st st' Hw.
  destruct (run_invariant pipe_resumes p fs0 events) as [H|[H _]]; fold st in H.
  - unfold st'. simpl. unfold Tar.emit_response_error.
    by rewrite (before_unregistered p st).
  - apply after_wired in H. congruence.
Qed.

Lemma extractTar_early_error_unhandled_witness :
  Tar.unhandled (Tar.run true ["opt"] ∅ [Tar.ResponseError (Error "reset")]) =
  [Error "reset"] /\
  Tar.extractTar true ["opt"] ∅
    [Tar.ResponseError (Error "reset"); Tar.MkdirSettled; Tar.DestinationFinish] =
  Resolved ["opt"].
Proof.
  split; [|reflexivity].
  apply (extractTar_early_error_unhandled true ["opt"] ∅ [] (Error "reset")). reflexivity.
Defined.

(** ** [extractZip], besides *)

Section extractZip_more.
Import Zip.




End extractZip_more.

(** X18. When [extractZip] resolves, it resolves with the path it was given,
    its last call was [clean], and nothing is left at or below the staging
    directory [<tmp>/coder/zip-staging]: neither the archive of this call
    nor anything another call had put there. *)
Theorem extractZip_resolved_namespace_gone (E : Zip.env) (p q : path) (w0 w : Zip.world) :
  Zip.extractZip E p w0 = (w, Resolved q) ->
  q = p /\
  (exists cs, Zip.calls w = cs ++ [Zip.Clean "zip-staging"]) /\
  (forall x, Fs.below (Zip.staging E) x -> Zip.fs w !! x = None).
Proof. apply extractZip_resolved_cleaned. Qed.

Lemma extractZip_resolved_namespace_gone_witness :
  let w0 := Zip.World {[ ["tmp"; "coder"; "zip-staging"; "tmp-other1"] := Dir ]} [] in
  let r := Zip.extractZip
             (Zip.sample_env [Zip.ResponseData "PK"; Zip.WriteFinish] true) ["opt"] w0 in
  r.2 = Resolved ["opt"] /\
  Zip.fs r.1 !! ["tmp"; "coder"; "zip-staging"; "tmp-other1"] = None.
Proof.
  intros w0 r.
  assert (Hr : r = (r.1, Resolved ["opt"])) by reflexivity.
  split; [by rewrite Hr|].
  apply (extractZip_resolved_namespace_gone
           (Zip.sample_env [Zip.ResponseData "PK"; Zip.WriteFinish] true)
           ["opt"] ["opt"] w0 r.1 Hr).
  by exists ["tmp-other1"].
Defined.

(** X19. When the destination directory cannot be made, [extractZip] rejects
    with the error of [mkdir] after [pause] and [mkdir] only: no staging
    directory is made and the file system is as it was. *)
Theorem extractZip_mkdir_fails (E : Zip.env) (p : path) (w0 : Zip.world) (e : error) :
  Fs.mkdir_recursive p (Zip.fs w0) = Err e ->
  Zip.extractZip E p w0 =
  (Zip.World (Zip.fs w0) (Zip.calls w0 ++ [Zip.Pause; Zip.Mkdir p]), Rejected e).
Proof.
  intros Hmk. unfold Zip.extractZip, Zip.mkdir.
  unfold mbind, Zip.async_bind, Zip.call_, Zip.await_fs. simpl.
  rewrite Hmk. by rewrite <- app_assoc.
Qed.

Lemma extractZip_mkdir_fails_witness :
  (Zip.extractZip (Zip.sample_env [Zip.WriteFinish] true) ["opt"; "coder"]
     (Zip.World {[ ["opt"] := File "x" ]} [])).2 = Rejected (SystemError "ENOTDIR").
Proof.
  rewrite (extractZip_mkdir_fails (Zip.sample_env [Zip.WriteFinish] true) ["opt"; "coder"]
             (Zip.World {[ ["opt"] := File "x" ]} []) (SystemError "ENOTDIR"));
    [reflexivity|reflexivity].
Defined.





(** ** [tmpdir] and [clean] together *)

Section tmpdir_facts.
Import Fs.

Lemma foldr_insert_lookup (qs : list path) (fs : files) (q : path) :
  foldr (fun q fs => <[q := Dir]> fs) fs qs !! q =
  if decide (q ∈ qs) then Some Dir else fs !! q.
Proof.
  case_decide as Hin; [by apply foldr_insert_dir|].
  induction qs as [|q' qs IH]; simpl; [done|].
  apply not_elem_of_cons in Hin as [Hne Hin].
  rewrite lookup_insert_ne by done. by apply IH.
Qed.

Lemma ancestors_length (p q : path) : q ∈ ancestors p -> length q <= length p.
Proof.
  unfold ancestors. intros (n & -> & Hn)%list_elem_of_fmap.
  rewrite length_take. lia.
Qed.

Lemma path_join_segment (dir : path) (seg : string) :
  occurs "/"%char seg = false -> seg <> "" -> seg <> "." -> seg <> ".." ->
  path_join dir seg = dir ++ [seg].
Proof.
  intros Hsep H1 H2 H3. unfold path_join.
  rewrite split_no_sep by done. rewrite normalize_plain by done.
  simpl. by rewrite rev_involutive.
Qed.

(** [mkdir] with [recursive] keeps the entries that exist. *)
Lemma mkdir_recursive_keeps (p : path) (fs fs' : files) (q : path) (n : node) :
  mkdir_recursive p fs = Ok fs' -> fs !! q = Some n -> fs' !! q = Some n.
Proof.
  unfold mkdir_recursive. destruct (existsb _ _) eqn:Ex; [done|]. intros [= <-] Hq.
  rewrite foldr_insert_lookup. case_decide as Hin; [|done].
  destruct n as [|data]; [done|]. exfalso.
  assert (existsb (is_file fs) (ancestors p) = true); [|congruence].
  apply existsb_exists. exists q. split; [by apply list_elem_of_In|].
  unfold is_file. by rewrite Hq.
Qed.

Lemma mkdir_recursive_new (p : path) (fs fs' : files) (q : path) :
  mkdir_recursive p fs = Ok fs' -> fs' !! q = None -> fs !! q = None.
Proof.
  intros Hmk Hq. destruct (fs !! q) as [n|] eqn:E; [|done].
  by rewrite (mkdir_recursive_keeps _ _ _ _ _ Hmk E) in Hq.
Qed.

Lemma tmpdir_inv (h : host) (suffix name : string) (fs fs' : files) (temp : path) :
  tmpdir h suffix name fs = Ok (temp, fs') ->
  exists fs1,
    mkdir_recursive (path_join (tmp h) ("coder/" +:+ name)) fs = Ok fs1 /\
    temp = path_join (tmp h) ("coder/" +:+ name) ++ ["tmp-" +:+ suffix] /\
    fs1 !! temp = None /\ fs' = <[temp := Dir]> fs1.
Proof.
  unfold tmpdir. set (dir := path_join (tmp h) ("coder/" +:+ name)).
  destruct (mkdir_recursive dir fs) as [fs1|] eqn:Emk; [|done].
  unfold mkdtemp. rewrite (path_join_segment dir "tmp-") by done.
  rewrite removelast_last, last_last.
  destruct (negb _); [done|].
  destruct (fs1 !! (dir ++ ["tmp-" +:+ suffix])) eqn:E; [done|].
  intros [= <- <-]. by exists fs1.
Qed.

End tmpdir_facts.

(** X22. When [tmpdir(name)] resolves, its result is the directory
    [tmp-<suffix>] in [<tmp>/coder/<name>]; the directory is new, it exists
    afterwards, inside a directory that exists, and every entry that existed
    before is as it was. *)
Theorem tmpdir_fresh (h : Fs.host) (suffix name : string) (fs fs' : files) (temp : path) :
  Fs.tmpdir h suffix name fs = Ok (temp, fs') ->
  let dir := path_join (Fs.tmp h) ("coder/" +:+ name) in
  temp = dir ++ ["tmp-" +:+ suffix] /\
  fs !! temp = None /\
  fs' !! temp = Some Dir /\
  Fs.is_dir fs' dir = true /\
  (forall q n, fs !! q = Some n -> fs' !! q = Some n).
Proof.
  intros Htmp dir. destruct (tmpdir_inv _ _ _ _ _ _ Htmp) as (fs1 & Hmk & -> & Hnew & ->).
  fold dir in Hmk, Hnew. fold dir.
  pose proof (mkdir_recursive_is_dir _ _ _ Hmk) as Hdir.
  split_and!.
  - done.
  - by apply (mkdir_recursive_new _ _ _ _ Hmk).
  - apply lookup_insert_eq.
  - unfold Fs.is_dir in *. destruct dir as [|seg dir']; [done|].
    rewrite lookup_insert_ne; [done|].
    intros H. apply (f_equal length) in H. rewrite length_app in H. simpl in H. lia.
  - intros q n Hq. rewrite lookup_insert_ne.
    + by apply (mkdir_recursive_keeps _ _ _ _ _ Hmk).
    + intros <-. pose proof (mkdir_recursive_new _ _ _ _ Hmk Hnew). congruence.
Qed.

Lemma tmpdir_fresh_witness :
  Fs.tmpdir (Fs.Host ["tmp"] ∅) "abc123" "zip-staging" {[ ["tmp"] := Dir ]} =
    Ok (["tmp"; "coder"; "zip-staging"; "tmp-abc123"],
        <[ ["tmp"; "coder"; "zip-staging"; "tmp-abc123"] := Dir ]>
          (<[ ["tmp"] := Dir ]> (<[ ["tmp"; "coder"] := Dir ]>
             (<[ ["tmp"; "coder"; "zip-staging"] := Dir ]> {[ ["tmp"] := Dir ]})))) /\
  ({[ ["tmp"] := Dir ]} : files) !! ["tmp"; "coder"; "zip-staging"; "tmp-abc123"] = None.
Proof.
  assert (H : Fs.tmpdir (Fs.Host ["tmp"] ∅) "abc123" "zip-staging" {[ ["tmp"] := Dir ]} =
    Ok (["tmp"; "coder"; "zip-staging"; "tmp-abc123"],
        <[ ["tmp"; "coder"; "zip-staging"; "tmp-abc123"] := Dir ]>
          (<[ ["tmp"] := Dir ]> (<[ ["tmp"; "coder"] := Dir ]>
             (<[ ["tmp"; "coder"; "zip-staging"] := Dir ]> {[ ["tmp"] := Dir ]})))))
    by reflexivity.
  split; [exact H|].
  apply (tmpdir_fresh _ _ _ _ _ _ H).
Defined.

(** X23. In a file system where nothing exists at or below
    [<tmp>/coder/<name>], where the directories above it exist and none is
    closed to the process, [tmpdir(name)] resolves, and [clean(name)] after
    it resolves and gives the file system back as it was. *)
Theorem tmpdir_then_clean (h : Fs.host) (suffix name : string) (fs : files) :
  let dir := path_join (Fs.tmp h) ("coder/" +:+ name) in
  (forall q, Fs.below dir q -> fs !! q = None) ->
  (forall q, q ∈ Fs.ancestors dir -> q <> dir -> fs !! q = Some Dir) ->
  Fs.denied h = ∅ ->
  exists temp fs',
    Fs.tmpdir h suffix name fs = Ok (temp, fs') /\
    Fs.below dir temp /\
    Fs.clean h name fs' = Ok fs.
Proof.
  intros dir Hbelow Habove Hden.
  set (temp := dir ++ ["tmp-" +:+ suffix]).
  set (fs1 := foldr (fun q fs => <[q := Dir]> fs) fs (Fs.ancestors dir)).
  assert (Hdirself : Fs.below dir dir) by done.
  assert (Htemp : Fs.below dir temp) by (by exists ["tmp-" +:+ suffix]).
  assert (Hmk : Fs.mkdir_recursive dir fs = Ok fs1).
  { unfold Fs.mkdir_recursive.
    destruct (existsb (Fs.is_file fs) (Fs.ancestors dir)) eqn:Ex; [|done].
    apply existsb_exists in Ex as (q & Hq%list_elem_of_In & Hfile).
    unfold Fs.is_file in Hfile. destruct (decide (q = dir)) as [->|Hne].
    - by rewrite Hbelow in Hfile.
    - by rewrite Habove in Hfile. }
  assert (Hnew : fs1 !! temp = None).
  { unfold fs1. rewrite foldr_insert_lookup. rewrite decide_False; [by apply Hbelow|].
    intros Hin%ancestors_length. unfold temp in Hin. rewrite length_app in Hin.
    simpl in Hin. lia. }
  exists temp, (<[temp := Dir]> fs1). split_and!; [|done|].
  - unfold Fs.tmpdir. fold dir. rewrite Hmk. unfold Fs.mkdtemp.
    rewrite (path_join_segment dir "tmp-") by done.
    rewrite removelast_last, last_last. fold temp.
    rewrite (mkdir_recursive_is_dir _ _ _ Hmk). simpl. by rewrite Hnew.
  - assert (Hne : forall q, length q <= length dir -> temp <> q).
    { intros q Hq <-. unfold temp in Hq. rewrite length_app in Hq. simpl in Hq. lia. }
    unfold Fs.clean. fold dir. rewrite Hden. rewrite rmdir_recursive_dir.
    2:{ pose proof (mkdir_recursive_is_dir _ _ _ Hmk) as Hdir. unfold Fs.is_dir in *.
        destruct dir as [|seg dir']; [done|]. by rewrite lookup_insert_ne by (by apply Hne). }
    2:{ apply blocked_at_dirs. intros q Hq.
        rewrite lookup_insert_ne by (apply Hne; apply above_shorter in Hq; lia).
        by apply foldr_insert_dir, above_ancestors. }
    f_equal. apply map_eq. intros q.
    rewrite outside_lookup. case_decide as Hq; [by rewrite Hbelow|].
    rewrite lookup_insert_ne by (by intros <-).
    unfold fs1. rewrite foldr_insert_lookup. case_decide as Hin; [|done].
    symmetry. apply Habove; [done|]. by intros ->.
Qed.

Lemma tmpdir_then_clean_witness :
  exists temp fs',
    Fs.tmpdir (Fs.Host ["tmp"] ∅) "abc123" "zip-staging"
      {[ ["tmp"] := Dir; ["tmp"; "coder"] := Dir ]} = Ok (temp, fs') /\
    Fs.below ["tmp"; "coder"; "zip-staging"] temp /\
    Fs.clean (Fs.Host ["tmp"] ∅) "zip-staging" fs' =
      Ok {[ ["tmp"] := Dir; ["tmp"; "coder"] := Dir ]}.
Proof.
  apply (tmpdir_then_clean (Fs.Host ["tmp"] ∅) "abc123" "zip-staging"
           {[ ["tmp"] := Dir; ["tmp"; "coder"] := Dir ]}).
  - intros q [k ->].
    change (path_join _ _) with ["tmp"; "coder"; "zip-staging"]. simpl.
    rewrite lookup_insert_ne by discriminate. apply lookup_singleton_ne. discriminate.
  - intros q Hq Hne.
    change (Fs.ancestors (path_join (Fs.tmp (Fs.Host ["tmp"] ∅)) ("coder/" +:+ "zip-staging")))
      with [ ["tmp"]; ["tmp"; "coder"]; ["tmp"; "coder"; "zip-staging"] ] in Hq.
    apply elem_of_cons in Hq as [->|Hq]; [reflexivity|].
    apply elem_of_cons in Hq as [->|Hq]; [reflexivity|].
    apply elem_of_cons in Hq as [->|Hq]; [done|]. by apply elem_of_nil in Hq.
  - reflexivity.
Defined.

(** X24. The name given to [clean] is not confined to [<tmp>/coder]: with
    the name [../x] the directory removed is [<tmp>/x]. *)
Theorem clean_leaves_namespace (h : Fs.host) (x : string) (fs fs' : files) :
  occurs "/"%char x = false -> x <> "" -> x <> "." -> x <> ".." ->
  Fs.clean h ("../" +:+ x) fs = Ok fs' ->
  path_join (Fs.tmp h) ("coder/" +:+ "../" +:+ x) = Fs.tmp h ++ [x] /\
  (forall q, Fs.below (Fs.tmp h ++ [x]) q -> fs' !! q = None).
Proof.
  intros Hsep H1 H2 H3 Hcl.
  assert (Hdir : path_join (Fs.tmp h) ("coder/" +:+ "../" +:+ x) = Fs.tmp h ++ [x]).
  { unfold path_join.
    change ("coder/" +:+ "../" +:+ x) with ("coder/../" +:+ x).
    rewrite (split_app "/"%char "coder/../" x).
    change (String_split "/"%char "coder/../") with ["coder"; ".."; ""].
    change (removelast ["coder"; ".."; ""] ++
            String_split "/"%char (List.last ["coder"; ".."; ""] "" +:+ x))
      with ("coder" :: ".." :: String_split "/"%char x).
    rewrite split_no_sep by done.
    rewrite (normalize_plain _ "coder") by done.
    change (normalize ("coder" :: rev (Fs.tmp h)) [".."; x])
      with (normalize (rev (Fs.tmp h)) [x]).
    rewrite (normalize_plain _ x) by done.
    simpl. by rewrite rev_involutive. }
  split; [done|]. intros q Hq.
  unfold Fs.clean in Hcl. rewrite Hdir in Hcl.
  apply rmdir_recursive_ok in Hcl. subst fs'. rewrite outside_lookup.
  by rewrite decide_True.
Qed.

Lemma clean_leaves_namespace_witness :
  Fs.clean (Fs.Host ["tmp"] ∅) "../other" {[ ["tmp"; "other"; "data"] := File "x" ]} = Ok ∅ /\
  (∅ : files) !! ["tmp"; "other"; "data"] = None.
Proof.
  assert (H : Fs.clean (Fs.Host ["tmp"] ∅) "../other"
                {[ ["tmp"; "other"; "data"] := File "x" ]} = Ok ∅) by reflexivity.
  split; [exact H|].
  apply (proj2 (clean_leaves_namespace (Fs.Host ["tmp"] ∅) "other" _ _
                  eq_refl ltac:(discriminate) ltac:(discriminate) ltac:(discriminate) H)).
  by exists ["data"].
Defined.
